(** * execd command runtime: tailing, session registry, status and seek

    A shallow embedding of the command-execution runtime of execd
    (components/execd): the file tailer of [command_common.go], the
    session registry it shares with the status API, and the web
    controller helpers of [basic.go] and the command controller. *)

From Stdlib Require Import ZArith Lia Bool.
From Stdlib Require Import Strings.Byte Strings.Ascii.
From stdpp Require Import base option list strings gmap.

Local Open Scope Z_scope.

(** ** Bytes and records

    A file is a [[]byte]; a record handed to [onExecute] is the Go string
    [scanner.Text()], i.e. the same bytes. *)

Definition bytes := list byte.

Definition LF : byte := x0a.
Definition CR : byte := x0d.

Definition blen (l : bytes) : Z := Z.of_nat (length l).

(** ** bufio.Scanner, as [readFromPos] configures it

    The scanner owns a buffer [buf] of [bufLen] bytes of which
    [buf[start:end]] (the [window]) is unconsumed input; [src] is what the
    underlying reader has not delivered yet.  Reading a regular file
    returns as many bytes as fit in the free tail of the buffer, and
    [(0, io.EOF)] once the file is exhausted; the file does not change
    while one [readFromPos] scans it. *)

Inductive ScanErr := ErrTooLong | ErrNegativeAdvance | ErrAdvanceTooFar | ErrNoProgress.

Record Scanner := mkScanner {
  src : bytes;
  bufLen : Z;
  start : Z;
  window : bytes;
  sawEOF : bool
}.

Definition bufEnd (s : Scanner) : Z := start s + blen (window s).

Inductive Step :=
| Emit (tok : bytes) (s : Scanner)
| Again (s : Scanner)
| Halt (e : option ScanErr).

Section Bufio.
(** The split function and the token cap installed by
    [scanner.Split] and [scanner.Buffer]. *)
Variable split : bytes -> bool -> Z * option bytes.
Variable maxTokenSize : Z.

Definition startBufSize : Z := 4096.

(** [s.advance(n)] *)
Definition advance (s : Scanner) (n : Z) : ScanErr + Scanner :=
  if n <? 0 then inl ErrNegativeAdvance
  else if blen (window s) <? n then inl ErrAdvanceTooFar
  else inr (mkScanner (src s) (bufLen s) (start s + n)
                      (drop (Z.to_nat n) (window s)) (sawEOF s)).

(** [s.r.Read(s.buf[s.end:len(s.buf)])] *)
Definition readMore (s : Scanner) : Step :=
  let room := bufLen s - bufEnd s in
  match src s with
  | [] => Again (mkScanner [] (bufLen s) (start s) (window s) true)
  | _ :: _ =>
      if room <=? 0 then Halt (Some ErrNoProgress)
      else Again (mkScanner (drop (Z.to_nat room) (src s)) (bufLen s) (start s)
                            (window s ++ take (Z.to_nat room) (src s)) false)
  end.

(** The second half of the body of [Scan]'s loop: no token could be cut
    from the window, so shift, grow and read.  (The other reason for
    [ErrTooLong], a buffer longer than [maxInt/2], needs more than 5MB.) *)
Definition fill (s : Scanner) : Step :=
  if sawEOF s then Halt None
  else
    let s1 :=
      if (0 <? start s) && ((bufEnd s =? bufLen s) || (bufLen s / 2 <? start s))
      then mkScanner (src s) (bufLen s) 0 (window s) (sawEOF s)
      else s in
    if bufEnd s1 =? bufLen s1 then
      if maxTokenSize <=? bufLen s1 then Halt (Some ErrTooLong)
      else
        let dbl := bufLen s1 * 2 in
        let newSize := Z.min (if dbl =? 0 then startBufSize else dbl) maxTokenSize in
        readMore (mkScanner (src s1) newSize 0 (window s1) (sawEOF s1))
    else readMore s1.

(** One turn of the loop inside [Scan]. *)
Definition scanStep (s : Scanner) : Step :=
  if (0 <? blen (window s)) || sawEOF s then
    let '(adv, tok) := split (window s) (sawEOF s) in
    match advance s adv with
    | inl e => Halt (Some e)
    | inr s' =>
        match tok with
        | Some t => Emit t s'
        | None => fill s'
        end
    end
  else fill s.

Inductive Outcome := Finished (s : Scanner) | Failed (e : ScanErr) | OutOfFuel.

(** [for scanner.Scan() { onExecute(scanner.Text()) }]: the records
    handed to the callback, in call order, and how the loop ended
    ([scanner.Err()]). *)
Fixpoint scanLoop (fuel : nat) (s : Scanner) : list bytes * Outcome :=
  match fuel with
  | O => ([], OutOfFuel)
  | S f =>
      match scanStep s with
      | Emit t s' => let '(ts, o) := scanLoop f s' in (t :: ts, o)
      | Again s' => scanLoop f s'
      | Halt None => ([], Finished s)
      | Halt (Some e) => ([], Failed e)
      end
  end.

(** Every turn either consumes window bytes, moves file bytes into the
    window, or records end of file, so this many turns are enough
    ([scanLoop_total]). *)
Definition scanMeasure (s : Scanner) : nat :=
  (2 * length (src s) + length (window s) + (if sawEOF s then 0 else 1))%nat.

Definition scanAll (s : Scanner) : list bytes * Outcome :=
  scanLoop (S (scanMeasure s)) s.
End Bufio.

(** [bufio.NewScanner(file)] followed by
    [scanner.Buffer(make([]byte, 0, cap), max)]. *)
Definition newScanner (unread : bytes) (cap : Z) : Scanner :=
  mkScanner unread cap 0 [] false.

(** ** command_common.go *)

Definition isDelim (b : byte) : bool := Byte.eqb b LF || Byte.eqb b CR.

(** The loop of the split closure, [i] being the index of the head of
    [data] in the slice the closure received: the advance and the token
    length at the first delimiter. *)
Fixpoint splitAt (data : bytes) (i : Z) : option (Z * Z) :=
  match data with
  | [] => None
  | b :: tl =>
      if isDelim b then
        if Byte.eqb b CR && match tl with nxt :: _ => Byte.eqb nxt LF | [] => false end
        then Some (i + 2, i)
        else Some (i + 1, i)
      else splitAt tl (i + 1)
  end.

(** The closure passed to [scanner.Split]. *)
Definition splitFunc (data : bytes) (atEOF : bool) : Z * option bytes :=
  match splitAt data 0 with
  | Some (adv, n) => (adv, Some (take (Z.to_nat n) data))
  | None =>
      if atEOF && (0 <? blen data) then (blen data, Some data)
      else (0, None)
  end.

Definition initialBufCap : Z := 64 * 1024.
Definition maxRecordSize : Z := 5 * 1024 * 1024.

(** What the tailer finds when it opens the capture file: [None] when
    [os.Open] fails, otherwise the bytes written so far. *)
Definition FileState := option bytes.

(** Which [return] of [readFromPos] was taken; [ReadStuck] stands for a
    scan that runs out of fuel, which [readFromPos_exit] rules out. *)
Inductive ReadExit := OpenFailed | ScanFailed (e : ScanErr) | ReadOK | ReadStuck.

Record ReadResult := mkRead {
  newPos : Z;
  delivered : list bytes;
  exit : ReadExit
}.

Definition readFromPos (file : FileState) (startPos : Z) : ReadResult :=
  match file with
  | None => mkRead startPos [] OpenFailed
  | Some content =>
      (* file.Seek(startPos, 0): a negative offset is refused, the error is
         dropped and the file stays at offset 0 *)
      let off := if startPos <? 0 then 0 else startPos in
      let unread := drop (Z.to_nat off) content in
      let s0 := newScanner unread initialBufCap in
      match scanAll splitFunc maxRecordSize s0 with
      | (recs, Finished s') =>
          (* file.Seek(0, 1) *)
          mkRead (off + (blen unread - blen (src s'))) recs ReadOK
      | (recs, Failed e) => mkRead startPos recs (ScanFailed e)
      | (recs, OutOfFuel) => mkRead startPos recs ReadStuck
      end
  end.

(** One wake-up of the [select] in [tailStdPipe]: the case it took, a
    tick of the ticker or the [done] channel, with the state of the file
    at that moment. *)
Inductive Event := Tick (f : FileState) | DoneSig (f : FileState).

Record ReadCall := mkCall {
  atPos : Z;
  isDrain : bool;
  result : ReadResult
}.

(** The loop of [tailStdPipe]: the calls of [readFromPos] it makes, and
    whether it returned ([false]: the events ran out while it was still
    blocked in [select]). *)
Fixpoint tailLoop (evs : list Event) (lastPos : Z) : list ReadCall * bool :=
  match evs with
  | [] => ([], false)
  | DoneSig f :: _ => ([mkCall lastPos true (readFromPos f lastPos)], true)
  | Tick f :: rest =>
      let r := readFromPos f lastPos in
      let '(calls, ret) := tailLoop rest (newPos r) in
      (mkCall lastPos false r :: calls, ret)
  end.

Definition tailStdPipe (evs : list Event) : list ReadCall * bool := tailLoop evs 0.

(** The records [onExecute] received, in call order. *)
Definition recordsOf (calls : list ReadCall) : list bytes :=
  concat (map (fun c => delivered (result c)) calls).


(** ** Vocabulary of the tailer's properties *)

(** Bytes free of both delimiters. *)
Definition plain (l : bytes) : Prop := Forall (fun b => isDelim b = false) l.

(** The bytes a command writes when it prints [lines], each ended by a
    line feed. *)
Definition flat (lines : list bytes) : bytes :=
  concat (map (fun l => l ++ [LF]) lines).

(** The same lines, each ended by CR LF. *)
Definition flatCRLF (lines : list bytes) : bytes :=
  concat (map (fun l => l ++ [CR; LF]) lines).

(** A line with no delimiter inside and shorter than the cap. *)
Definition okLine (maxTok : Z) (l : bytes) : Prop := plain l /\ blen l < maxTok.

(** What a read makes of undelimited bytes at the end of the file. *)
Definition tailRec (p : bytes) : list bytes :=
  match p with [] => [] | _ :: _ => [p] end.

(** The buffer discipline of the scanner. *)
Record Inv (s : Scanner) : Prop := mkInv {
  inv_start : 0 <= start s;
  inv_end : bufEnd s <= bufLen s;
  inv_len : 0 < bufLen s;
  inv_eof : sawEOF s = true -> src s = []
}.

(** A foreground run as the tailer sees it: before each tick the command
    has appended a group of whole lines ([None]: the file could not be
    opened at that tick); when [done] fires the file also holds the
    [final] lines and, if the output does not end in a line feed, the
    [partial] last line. *)
Fixpoint pollSchedule (written : bytes) (groups : list (option (list bytes)))
         (final : list bytes) (partial : bytes) : list Event :=
  match groups with
  | [] => [DoneSig (Some (written ++ flat final ++ partial))]
  | None :: gs => Tick None :: pollSchedule written gs final partial
  | Some g :: gs =>
      Tick (Some (written ++ flat g)) :: pollSchedule (written ++ flat g) gs final partial
  end.

(** The lines a command printed over such a run, the last one being
    [partial] when that is not empty. *)
Definition printed (groups : list (option (list bytes))) (final : list bytes)
           (partial : bytes) : list bytes :=
  concat (map (fun g => default [] g) groups) ++ final ++ tailRec partial.

(** The offset the loop holds after a run of polls. *)
Definition lastOffset (polls : list ReadCall) : Z :=
  match last polls with
  | Some c => newPos (result c)
  | None => 0
  end.

Definition str (s : string) : bytes := String.list_byte_of_string s.

#[local] Instance byte_eq_decision : EqDecision byte := Byte.byte_eq_dec.

(** ** The session registry (command_common.go) *)

(** Instants ([time.Time]), as seconds; [0] is the zero time. *)
Definition Time := Z.

(** Modelled from the spec: the declaration of [commandKernel] is not
    among the sources; its fields are those of the Session Kernel of the
    data model, under the names the composite literals of
    command_status_test.go give them.  [finishedAt] and [exitCode] are
    pointers, [None] being [nil]. *)
Record commandKernel := mkKernel {
  pid : Z;
  stdoutPath : string;
  stderrPath : string;
  isBackground : bool;
  startedAt : Time;
  finishedAt : option Time;
  exitCode : option Z;
  errMsg : string;
  running : bool
}.

(** [c.commandClientMap], a [map[string]*commandKernel]: a stored pointer
    may be [nil] ([None]).  The lock only serialises the two accesses. *)
Abbreviation Registry := (gmap string (option commandKernel)).

(** [getCommandKernel]: indexing a Go map with an absent key yields the
    zero value, here the [nil] pointer. *)
Definition getCommandKernel (m : Registry) (sessionID : string) : option commandKernel :=
  default None (m !! sessionID).

(** [storeCommandKernel] *)
Definition storeCommandKernel (m : Registry) (sessionID : string)
           (kernel : option commandKernel) : Registry :=
  <[sessionID := kernel]> m.

(** [stdoutFileName], [stderrFileName] and [combinedOutputFileName],
    [tmp] being [os.TempDir()].  [filepath.Join] also cleans the path it
    builds; the concatenation is its result where there is nothing to
    clean: [tmp] is an absolute path in clean form and [session] holds
    no separator and no dot-dot element.  Nothing proved below depends
    on the value of a path. *)
Definition stdoutFileName (tmp session : string) : string :=
  (tmp +:+ "/" +:+ session +:+ ".stdout")%string.
Definition stderrFileName (tmp session : string) : string :=
  (tmp +:+ "/" +:+ session +:+ ".stderr")%string.
Definition combinedOutputFileName (tmp session : string) : string :=
  (tmp +:+ "/" +:+ session +:+ ".output")%string.

(** ** Status and seek *)

Record CommandStatus := mkStatus {
  Session : string;
  Running : bool;
  ExitCode : option Z;
  Error : string;
  Content : string;
  StartedAt : Time;
  FinishedAt : option Time
}.

(** The failures the spec names for the two queries. *)
Inductive RuntimeErr := NotFound (session : string) | InvalidRequest (session : string).

(** Modelled from the spec: [Controller.GetCommandStatus] is not among
    the sources.  "GetStatus(sessionID) -> {running, exitCode?,
    finishedAt?, startedAt, errMsg?, sessionID}: fails with NotFound if
    the session id is unknown.  Must reflect the latest registry state at
    call time."  The spec names no content, so [Content] keeps its zero
    value. *)
Definition GetCommandStatus (m : Registry) (session : string) : RuntimeErr + CommandStatus :=
  match getCommandKernel m session with
  | None => inl (NotFound session)
  | Some k =>
      inr (mkStatus session (running k) (exitCode k) (errMsg k) ""
                    (startedAt k) (finishedAt k))
  end.

(** Modelled from the spec: [Controller.SeekBackgroundCommandOutput] is
    not among the sources.  "SeekOutput(sessionID, cursor) -> (bytes,
    newCursor): returns all output captured since cursor, and the new
    cursor to use on the next call.  Fails with InvalidRequest if the
    session is unknown; a request with cursor beyond current file length
    returns an empty result and the unchanged cursor (not an error)."
    [fs] gives the bytes captured so far at a path. *)
Definition SeekBackgroundCommandOutput (m : Registry) (fs : string -> bytes)
           (session : string) (cursor : Z) : RuntimeErr + (bytes * Z) :=
  match getCommandKernel m session with
  | None => inl (InvalidRequest session)
  | Some k =>
      let out := fs (stdoutPath k) in
      if blen out <=? cursor then inr ([], cursor)
      else inr (drop (Z.to_nat cursor) out, blen out)
  end.

(** Modelled from the spec: the execution engine is not among the
    sources.  What it does to the registry, after section 4.4 and the
    data model: [Run] registers a kernel with [running = true] and
    [startedAt = now]; when the process has exited, or could not be
    spawned, the kernel gets [running = false], [finishedAt] (set exactly
    once, when [running] turns false) and the exit code (absent when the
    process reported none) or the error message; [Interrupt] signals the
    process and leaves the registry alone. *)
Inductive EngineOp :=
| OpRun (session : string) (processID : Z) (background : bool) (now : Time)
| OpFinish (session : string) (now : Time) (code : option Z) (err : string)
| OpInterrupt (session : string).

(** [os.TempDir()] where [TMPDIR] is not set. *)
Definition tempDir : string := "/tmp".

Definition freshKernel (session : string) (processID : Z) (background : bool) (now : Time)
  : commandKernel :=
  mkKernel processID (stdoutFileName tempDir session) (stderrFileName tempDir session)
           background now None None "" true.

Definition finishKernel (k : commandKernel) (now : Time) (code : option Z) (err : string)
  : commandKernel :=
  mkKernel (pid k) (stdoutPath k) (stderrPath k) (isBackground k) (startedAt k)
           (Some now) code err false.

Definition engineStep (m : Registry) (op : EngineOp) : Registry :=
  match op with
  | OpRun session processID background now =>
      storeCommandKernel m session (Some (freshKernel session processID background now))
  | OpFinish session now code err =>
      match getCommandKernel m session with
      | Some k =>
          if running k then storeCommandKernel m session (Some (finishKernel k now code err))
          else m
      | None => m
      end
  | OpInterrupt _ => m
  end.

(** The registry after the engine has run [ops] from a fresh controller. *)
Definition engineRun (ops : list EngineOp) : Registry := foldl engineStep ∅ ops.

(** The invariant of the data model on one kernel. *)
Definition kernelOK (k : commandKernel) : Prop :=
  (running k = true -> finishedAt k = None /\ exitCode k = None)
  /\ (running k = false -> is_Some (finishedAt k)).

(** The registry of a fresh controller after a series of
    [storeCommandKernel] calls. *)
Definition storeAll (stores : list (string * option commandKernel)) : Registry :=
  foldl (fun m st => storeCommandKernel m st.1 st.2) ∅ stores.

(** The finished background session of command_status_test.go. *)
Definition doneKernel : commandKernel :=
  mkKernel 456 "/tmp/sess-done.stdout" "" true 10 (Some 12) (Some 0) "" false.

(** ** The web controller (basic.go and the command controller) *)

Module Web.

(** *** strconv.ParseInt(s, 10, 64) *)

Inductive NumError := ErrSyntax | ErrRange.

Definition maxUint64 : Z := 2 ^ 64 - 1.

Definition digit (c : Ascii.ascii) : option Z :=
  let n := Z.of_N (Ascii.N_of_ascii c) in
  if (48 <=? n) && (n <=? 57) then Some (n - 48) else None.

(** The digit loop of [ParseUint] in base 10: [n] is the value read so
    far. *)
Fixpoint parseDigits (s : string) (n : Z) : NumError + Z :=
  match s with
  | EmptyString => inr n
  | String c rest =>
      match digit c with
      | None => inl ErrSyntax
      | Some d =>
          if maxUint64 / 10 + 1 <=? n then inl ErrRange
          else
            let n1 := n * 10 + d in
            if maxUint64 <? n1 then inl ErrRange else parseDigits rest n1
      end
  end.

Definition ParseUint (s : string) : NumError + Z :=
  match s with
  | EmptyString => inl ErrSyntax
  | _ => parseDigits s 0
  end.

(** [ParseInt] also returns a clamped value beside a range error; no
    caller here reads it. *)
Definition ParseInt (s : string) : NumError + Z :=
  match s with
  | EmptyString => inl ErrSyntax
  | String c rest =>
      let neg := Ascii.eqb c "-"%char in
      let body := if Ascii.eqb c "+"%char || neg then rest else s in
      match ParseUint body with
      | inl e => inl e
      | inr un =>
          let cutoff := 2 ^ 63 in
          if negb neg && (cutoff <=? un) then inl ErrRange
          else if neg && (cutoff <? un) then inl ErrRange
          else inr (if neg then - un else un)
      end
  end.

(** An optional sign followed by at least one decimal digit. *)
Fixpoint allDigits (s : string) : bool :=
  match s with
  | EmptyString => true
  | String c rest => match digit c with Some _ => allDigits rest | None => false end
  end.

Definition numeric (s : string) : bool :=
  match s with
  | EmptyString => false
  | String c rest =>
      if Ascii.eqb c "+"%char || Ascii.eqb c "-"%char
      then negb (String.eqb rest "") && allDigits rest
      else allDigits s
  end.

(** *** basic.go *)

Definition QueryInt64 (query : string) (defaultValue : Z) : Z :=
  match ParseInt query with
  | inl _ => defaultValue
  | inr val => val
  end.

(** *** Requests and responses *)

Inductive ErrorCode := ErrorCodeInvalidRequest | ErrorCodeMissingQuery | ErrorCodeRuntimeError.

Definition StatusOK : Z := 200.
Definition StatusBadRequest : Z := 400.
Definition StatusNotFound : Z := 404.

Record CommandStatusResponse := mkStatusResponse {
  ID : string;
  RespRunning : bool;
  RespExitCode : option Z;
  RespError : string;
  RespContent : string;
  RespStartedAt : Time;
  RespFinishedAt : option Time
}.

(** What a handler leaves in the response: the error envelope of
    [RespondError], the JSON of [RespondSuccess], or the plain-text body
    the seek handler writes with its [EXECD-COMMANDS-TAIL-CURSOR]
    header. *)
Inductive Response :=
| RespondError (status : Z) (code : ErrorCode) (message : string)
| RespondSuccess (data : CommandStatusResponse)
| TextBody (status : Z) (tailCursor : Z) (body : bytes).

(** [c.Ctx.Input.Query(key)]: the empty string when the request has no
    such parameter. *)
Definition Query (params : gmap string string) (key : string) : string :=
  default EmptyString (params !! key).

Section Handlers.
(** The runtime behind [codeRunner], and [err.Error()]. *)
Variable runtimeStatus : string -> RuntimeErr + CommandStatus.
Variable runtimeSeek : string -> Z -> RuntimeErr + (bytes * Z).
Variable errorText : RuntimeErr -> string.

(** [GetCommandStatus], [commandID] being the [:id] of the route. *)
Definition GetCommandStatus (commandID : string) : Response :=
  if String.eqb commandID "" then
    RespondError StatusBadRequest ErrorCodeInvalidRequest "missing command execution id"
  else
    match runtimeStatus commandID with
    | inl err => RespondError StatusNotFound ErrorCodeInvalidRequest (errorText err)
    | inr status =>
        RespondSuccess (mkStatusResponse (Session status) (Running status) (ExitCode status)
                   (Error status) (Content status)
                   (if StartedAt status =? 0 then 0 else StartedAt status)
                   (match FinishedAt status with
                    | Some t => Some t
                    | None => None
                    end))
    end.

(** [GetBackgroundCommandOutput] *)
Definition GetBackgroundCommandOutput (id : string) (params : gmap string string)
  : Response :=
  if String.eqb id "" then
    RespondError StatusBadRequest ErrorCodeMissingQuery "missing command execution id"
  else
    let cursor := QueryInt64 (Query params "cursor") 0 in
    match runtimeSeek id cursor with
    | inl err => RespondError StatusBadRequest ErrorCodeInvalidRequest (errorText err)
    | inr (output, lastCursor) => TextBody StatusOK lastCursor output
    end.
End Handlers.

End Web.

(** ** Further vocabulary of the tailer *)

(** The bytes of [l] that are no delimiters, in order. *)
Fixpoint payload (l : bytes) : bytes :=
  match l with
  | [] => []
  | b :: tl => if isDelim b then payload tl else b :: payload tl
  end.

(** How the split closure cuts the token [t] off [data], advancing by
    [adv]: at the first delimiter, which is one byte or a CR LF pair seen
    whole, or, at the end of the file, all that is left. *)
Definition cutAt (data : bytes) (atEOF : bool) (adv : Z) (t : bytes) : Prop :=
  (exists d post,
      data = t ++ d :: post /\ plain t /\ isDelim d = true /\
      ((adv = blen t + 1 /\ ~ (d = CR /\ exists p, post = LF :: p))
       \/ (adv = blen t + 2 /\ d = CR /\ exists p, post = LF :: p)))
  \/ (atEOF = true /\ data = t /\ plain t /\ t <> [] /\ adv = blen t).

(** No CR in [data] is directly followed by LF. *)
Fixpoint noCRLF (data : bytes) : bool :=
  match data with
  | [] => true
  | b :: tl =>
      negb (Byte.eqb b CR && match tl with nxt :: _ => Byte.eqb nxt LF | [] => false end)
      && noCRLF tl
  end.

(** The records of [data] when every LF and every CR ends one: [cur] is
    the record being collected. *)
Fixpoint cut (data : bytes) (cur : bytes) : list bytes :=
  match data with
  | [] => tailRec cur
  | b :: tl => if isDelim b then cur :: cut tl [] else cut tl (cur ++ [b])
  end.

(** The records of [data] when every LF, every CR LF pair and every
    other CR ends one: [cur] is the record being collected, [afterCR]
    tells that the byte before was a CR. *)
Fixpoint cutCRLF (data : bytes) (cur : bytes) (afterCR : bool) : list bytes :=
  match data with
  | [] => tailRec cur
  | b :: tl =>
      if Byte.eqb b LF then
        if afterCR then cutCRLF tl [] false else cur :: cutCRLF tl [] false
      else if Byte.eqb b CR then cur :: cutCRLF tl [] true
      else cutCRLF tl (cur ++ [b]) false
  end.

(** A run in which the capture file only grows: before each tick the
    command has appended a chunk of bytes ([None]: the file could not be
    opened at that tick), and [final] is appended before [done] fires;
    [drainOpens] tells whether the drain after [done] can open the
    file. *)
Fixpoint growSchedule (written : bytes) (chunks : list (option bytes)) (final : bytes)
         (drainOpens : bool) : list Event :=
  match chunks with
  | [] => [DoneSig (if drainOpens then Some (written ++ final) else None)]
  | None :: cs => Tick None :: growSchedule written cs final drainOpens
  | Some c :: cs =>
      Tick (Some (written ++ c)) :: growSchedule (written ++ c) cs final drainOpens
  end.

(** All the bytes written over such a run. *)
Definition grown (chunks : list (option bytes)) (final : bytes) : bytes :=
  concat (map (fun c => default [] c) chunks) ++ final.

(** Successive reads of the loop hand the offset on. *)
Fixpoint chained (pos : Z) (calls : list ReadCall) : Prop :=
  match calls with
  | [] => True
  | c :: rest =>
      atPos c = pos /\ pos <= newPos (result c) /\ chained (newPos (result c)) rest
  end.

(** ** strconv.FormatInt(i, 10) *)

Definition digitChar (d : Z) : Ascii.ascii := Ascii.ascii_of_N (Z.to_N (48 + d)).

(** The digit loop of [formatBits] in base 10: the digits of [u] are put
    in front of [acc], the last one first; [fuel] bounds the number of
    digits. *)
Fixpoint formatBits (fuel : nat) (u : Z) (acc : string) : string :=
  match fuel with
  | O => acc
  | S fuel' =>
      if u <? 10 then String (digitChar u) acc
      else formatBits fuel' (u / 10) (String (digitChar (u mod 10)) acc)
  end.

Definition FormatInt (i : Z) : string :=
  if i <? 0 then String "-"%char (formatBits 20 (- i) EmptyString)
  else formatBits 20 i EmptyString.

(** The [EXECD-COMMANDS-TAIL-CURSOR] header of a response, as
    [GetBackgroundCommandOutput] writes it. *)
Definition tailCursorHeader (r : Web.Response) : option string :=
  match r with
  | Web.TextBody _ lastCursor _ => Some (FormatInt lastCursor)
  | _ => None
  end.

(** ** The egress policy (policy.go) *)

Module Policy.

(** *** The string functions of [strings] that work byte by byte *)

(** [s[n:]] and [s[:n]] *)
Fixpoint sliceFrom (n : nat) (s : string) : string :=
  match n, s with
  | S n', String _ rest => sliceFrom n' rest
  | _, _ => s
  end.

Fixpoint sliceTo (n : nat) (s : string) : string :=
  match n, s with
  | S n', String c rest => String c (sliceTo n' rest)
  | _, _ => EmptyString
  end.

Definition HasPrefix (s prefix : string) : bool :=
  (String.length prefix <=? String.length s)%nat
  && String.eqb (sliceTo (String.length prefix) s) prefix.

Definition HasSuffix (s suffix : string) : bool :=
  (String.length suffix <=? String.length s)%nat
  && String.eqb (sliceFrom (String.length s - String.length suffix) s) suffix.

Definition TrimPrefix (s prefix : string) : string :=
  if HasPrefix s prefix then sliceFrom (String.length prefix) s else s.

Definition TrimSuffix (s suffix : string) : string :=
  if HasSuffix s suffix then sliceTo (String.length s - String.length suffix) s else s.

(** *** The policy *)

Definition ActionAllow : string := "allow".
Definition ActionDeny : string := "deny".

Record EgressRule := mkRule {
  Action : string;
  Target : string
}.

Record NetworkPolicy := mkPolicy {
  Egress : list EgressRule;
  DefaultAction : string
}.

Definition DefaultDenyPolicy : NetworkPolicy := mkPolicy [] ActionDeny.

(** [ensureDefaults]: [None] is the [nil] pointer. *)
Definition ensureDefaults (p : option NetworkPolicy) : NetworkPolicy :=
  match p with
  | None => DefaultDenyPolicy
  | Some p =>
      if String.eqb (DefaultAction p) "" then mkPolicy (Egress p) ActionDeny else p
  end.

Section Strings.
(** [strings.ToLower] and [strings.TrimSpace], which work on the runes of
    a string, and [json.Unmarshal] into a zero [NetworkPolicy] ([None]: it
    returned an error). *)
Variable ToLower : string -> string.
Variable TrimSpace : string -> string.
Variable Unmarshal : string -> option NetworkPolicy.

Definition matchesDomain (r : EgressRule) (domain : string) : bool :=
  let pattern := ToLower (TrimSpace (Target r)) in
  let domain := ToLower domain in
  if String.eqb pattern "" then false
  else if String.eqb pattern domain then true
  else if HasPrefix pattern "*." then
    let suffix := TrimPrefix pattern "*" in
    HasSuffix domain suffix && negb (String.eqb domain (TrimPrefix pattern "*."))
  else false.

(** The loop of [Evaluate] over the rules: the answer of the first rule
    that matches, if any. *)
Fixpoint firstMatch (rules : list EgressRule) (domain : string) : option string :=
  match rules with
  | [] => None
  | r :: rest =>
      if matchesDomain r domain then
        Some (if String.eqb (Action r) "" then ActionDeny else Action r)
      else firstMatch rest domain
  end.

Definition Evaluate (p : option NetworkPolicy) (domain : string) : string :=
  match p with
  | None => ActionDeny
  | Some p =>
      let domain := ToLower (TrimSuffix domain ".") in
      match firstMatch (Egress p) domain with
      | Some action => action
      | None => if String.eqb (DefaultAction p) "" then ActionDeny else DefaultAction p
      end
  end.

(** [ParsePolicy]: [None] is the error of [json.Unmarshal]. *)
Definition ParsePolicy (raw : string) : option NetworkPolicy :=
  let trimmed := TrimSpace raw in
  if String.eqb trimmed "" || String.eqb trimmed "null" || String.eqb trimmed "{}" then
    Some DefaultDenyPolicy
  else
    match Unmarshal trimmed with
    | None => None
    | Some p => Some (ensureDefaults (Some p))
    end.
End Strings.

(** [strings.ToLower] and [strings.TrimSpace] on ASCII text. *)
Definition lowerChar (c : Ascii.ascii) : Ascii.ascii :=
  let n := Ascii.N_of_ascii c in
  if ((65 <=? n) && (n <=? 90))%N then Ascii.ascii_of_N (n + 32) else c.

Fixpoint lowerASCII (s : string) : string :=
  match s with
  | EmptyString => EmptyString
  | String c rest => String (lowerChar c) (lowerASCII rest)
  end.

Definition isSpace (c : Ascii.ascii) : bool :=
  let n := Ascii.N_of_ascii c in
  ((n =? 32) || ((9 <=? n) && (n <=? 13)))%N.

Fixpoint trimLeft (s : string) : string :=
  match s with
  | String c rest => if isSpace c then trimLeft rest else s
  | EmptyString => EmptyString
  end.

Fixpoint trimRight (s : string) : string :=
  match s with
  | EmptyString => EmptyString
  | String c rest =>
      match trimRight rest with
      | EmptyString => if isSpace c then EmptyString else String c EmptyString
      | kept => String c kept
      end
  end.

Definition trimASCII (s : string) : string := trimRight (trimLeft s).

End Policy.

(** * Sanity checks *)

Example read_two_lines :
  readFromPos (Some (str "ab" ++ [LF] ++ str "cd" ++ [LF])) 0
  = mkRead 6 [str "ab"; str "cd"] ReadOK.
Proof. vm_compute. reflexivity. Qed.

Example read_crlf :
  readFromPos (Some (str "ab" ++ [CR; LF] ++ str "cd" ++ [CR; LF])) 0
  = mkRead 8 [str "ab"; str "cd"] ReadOK.
Proof. vm_compute. reflexivity. Qed.

Example read_partial :
  readFromPos (Some (str "abc")) 1 = mkRead 3 [str "bc"] ReadOK.
Proof. vm_compute. reflexivity. Qed.

(** * Properties of the tailer *)

(** ** The split closure *)


Lemma blen_nonneg (l : bytes) : 0 <= blen l.
Proof. unfold blen. lia. Qed.

Lemma blen_app (a b : bytes) : blen (a ++ b) = blen a + blen b.
Proof. unfold blen. rewrite length_app. lia. Qed.

Lemma blen_cons (x : byte) (l : bytes) : blen (x :: l) = 1 + blen l.
Proof. unfold blen. simpl length. lia. Qed.

Lemma take_blen_app (a b : bytes) : take (Z.to_nat (blen a)) (a ++ b) = a.
Proof. unfold blen. rewrite Nat2Z.id. apply take_app_length. Qed.

Lemma drop_blen_app (a b : bytes) : drop (Z.to_nat (blen a)) (a ++ b) = b.
Proof. unfold blen. rewrite Nat2Z.id. apply drop_app_length. Qed.

Lemma plain_app (a b : bytes) : plain (a ++ b) <-> plain a /\ plain b.
Proof. apply Forall_app. Qed.

Lemma splitAt_plain (l : bytes) (i : Z) : plain l -> splitAt l i = None.
Proof.
  intros H. revert i. induction H as [|b l Hb _ IH]; intros i; simpl.
  - reflexivity.
  - rewrite Hb. apply IH.
Qed.

Lemma splitAt_LF (l tl : bytes) (i : Z) :
  plain l -> splitAt (l ++ LF :: tl) i = Some (i + blen l + 1, i + blen l).
Proof.
  intros H. revert i. induction H as [|b l Hb _ IH]; intros i; simpl.
  - unfold blen. simpl. f_equal. f_equal; lia.
  - rewrite Hb, IH, blen_cons. f_equal. f_equal; lia.
Qed.

(** A CR directly followed by LF inside the slice is one delimiter. *)
Lemma splitAt_CRLF (l tl : bytes) (i : Z) :
  plain l -> splitAt (l ++ CR :: LF :: tl) i = Some (i + blen l + 2, i + blen l).
Proof.
  intros H. revert i. induction H as [|b l Hb _ IH]; intros i; simpl.
  - unfold blen. simpl. f_equal. f_equal; lia.
  - rewrite Hb, IH, blen_cons. f_equal. f_equal; lia.
Qed.

Lemma splitAt_CR_last (l : bytes) (i : Z) :
  plain l -> splitAt (l ++ [CR]) i = Some (i + blen l + 1, i + blen l).
Proof.
  intros H. revert i. induction H as [|b l Hb _ IH]; intros i; simpl.
  - unfold blen. simpl. f_equal. f_equal; lia.
  - rewrite Hb, IH, blen_cons. f_equal. f_equal; lia.
Qed.

Lemma splitFunc_line (l tl : bytes) (e : bool) :
  plain l -> splitFunc (l ++ LF :: tl) e = (blen l + 1, Some l).
Proof.
  intros H. unfold splitFunc. rewrite splitAt_LF by assumption.
  rewrite !Z.add_0_l, take_blen_app. reflexivity.
Qed.

Lemma splitFunc_crlf (l tl : bytes) (e : bool) :
  plain l -> splitFunc (l ++ CR :: LF :: tl) e = (blen l + 2, Some l).
Proof.
  intros H. unfold splitFunc. rewrite splitAt_CRLF by assumption.
  rewrite !Z.add_0_l, take_blen_app. reflexivity.
Qed.

(** A CR that ends the slice is cut as a delimiter of its own, and a
    slice that begins with LF yields an empty token. *)
Lemma splitFunc_cr_at_end (l : bytes) (e : bool) :
  plain l -> splitFunc (l ++ [CR]) e = (blen l + 1, Some l).
Proof.
  intros H. unfold splitFunc. rewrite splitAt_CR_last by assumption.
  rewrite !Z.add_0_l, take_blen_app. reflexivity.
Qed.

Lemma splitFunc_lf_first (tl : bytes) (e : bool) : splitFunc (LF :: tl) e = (1, Some []).
Proof. reflexivity. Qed.

Lemma splitFunc_plain_more (l : bytes) : plain l -> splitFunc l false = (0, None).
Proof. intros H. unfold splitFunc. rewrite splitAt_plain by assumption. reflexivity. Qed.

Lemma splitFunc_plain_eof (l : bytes) :
  plain l -> l <> [] -> splitFunc l true = (blen l, Some l).
Proof.
  intros H Hne. unfold splitFunc. rewrite splitAt_plain by assumption.
  destruct l as [|b l]; [congruence|]. rewrite blen_cons.
  pose proof (blen_nonneg l).
  replace (0 <? 1 + blen l) with true by (symmetry; apply Z.ltb_lt; lia).
  reflexivity.
Qed.

Lemma splitAt_bounds (data : bytes) (i adv n : Z) :
  splitAt data i = Some (adv, n) -> i + 1 <= adv /\ i <= n.
Proof.
  revert i. induction data as [|b tl IH]; intros i; simpl; [discriminate|].
  destruct (isDelim b).
  - destruct (_ && _); intros [= <- <-]; lia.
  - intros H. apply IH in H. lia.
Qed.

(** A token always comes with a positive advance. *)
Lemma splitFunc_token (data : bytes) (e : bool) (adv : Z) (t : bytes) :
  splitFunc data e = (adv, Some t) -> 1 <= adv.
Proof.
  unfold splitFunc. destruct (splitAt data 0) as [[a n]|] eqn:E.
  - intros [= <- _]. apply splitAt_bounds in E. lia.
  - destruct (e && (0 <? blen data)) eqn:C; [|discriminate].
    intros [= <- _]. apply andb_true_iff in C as [_ C]. apply Z.ltb_lt in C. lia.
Qed.

(** ** The scanner's buffer discipline *)


Ltac zcases :=
  repeat match goal with
    | |- context [?a <? ?b] => destruct (Z.ltb_spec a b)
    | |- context [?a <=? ?b] => destruct (Z.leb_spec a b)
    | |- context [?a =? ?b] => destruct (Z.eqb_spec a b)
    end.

Ltac scanner_fields :=
  cbn [src bufLen start window sawEOF bufEnd andb orb] in *.

Lemma newScanner_inv (unread : bytes) (cap : Z) : 0 < cap -> Inv (newScanner unread cap).
Proof.
  intros H. split; unfold newScanner, bufEnd, blen; simpl; try lia; try discriminate.
Qed.

Lemma advance_inr (s s' : Scanner) (n : Z) :
  advance s n = inr s' ->
  0 <= n <= blen (window s) /\
  s' = mkScanner (src s) (bufLen s) (start s + n) (drop (Z.to_nat n) (window s)) (sawEOF s).
Proof.
  unfold advance. zcases; try discriminate. intros [= <-]. split; [lia | reflexivity].
Qed.

Lemma advance_inv (s s' : Scanner) (n : Z) :
  Inv s -> advance s n = inr s' ->
  Inv s' /\ (scanMeasure s' + Z.to_nat n = scanMeasure s)%nat /\ 0 <= n /\
  src s' = src s /\ sawEOF s' = sawEOF s /\ window s' = drop (Z.to_nat n) (window s).
Proof.
  intros [H1 H2 H3 H4] H. apply advance_inr in H as [Hn ->].
  destruct s as [sr bl st w eof]. unfold scanMeasure, bufEnd, blen in *. scanner_fields.
  repeat split; unfold bufEnd, blen; scanner_fields; auto; rewrite ?length_drop; try lia.
Qed.

(** A read into a buffer with room left either records the end of the
    file or moves file bytes into the window. *)
Lemma readMore_spec (s : Scanner) :
  Inv s -> sawEOF s = false -> bufEnd s < bufLen s ->
  exists s2, readMore s = Again s2 /\ Inv s2 /\
    (scanMeasure s2 < scanMeasure s)%nat /\
    window s2 ++ src s2 = window s ++ src s /\
    bufLen s2 = bufLen s /\
    (src s <> [] -> sawEOF s2 = false).
Proof.
  intros [H1 H2 H3 H4] Heof Hroom. destruct s as [sr bl st w eof].
  unfold readMore, scanMeasure, bufEnd, blen in *. scanner_fields. subst eof.
  destruct sr as [|b sr].
  - eexists. split; [reflexivity|].
    repeat split; unfold bufEnd, blen; scanner_fields; simpl; auto; try lia; congruence.
  - destruct (Z.leb_spec (bl - (st + Z.of_nat (length w))) 0); [lia|].
    eexists. split; [reflexivity|].
    repeat split; unfold bufEnd, blen; scanner_fields;
      rewrite ?length_app, ?length_take, ?length_drop; simpl length;
      try lia; try discriminate.
    rewrite <- app_assoc, take_drop. reflexivity.
Qed.

(** What [fill] does to a scanner that has not seen the end of the file:
    it fails exactly when the window fills a buffer that may not grow,
    and otherwise reads, keeping the unconsumed input as it was. *)
Lemma fill_spec (maxTok : Z) (s : Scanner) :
  Inv s -> sawEOF s = false ->
  (fill maxTok s = Halt (Some ErrTooLong) /\ maxTok <= blen (window s))
  \/ (exists s2, fill maxTok s = Again s2 /\ Inv s2 /\
        (scanMeasure s2 < scanMeasure s)%nat /\
        window s2 ++ src s2 = window s ++ src s /\
        (blen (window s) < maxTok \/ blen (window s) < bufLen s) /\
        (bufLen s <= maxTok -> bufLen s2 <= maxTok) /\
        (src s <> [] -> sawEOF s2 = false)).
Proof.
  intros HI Heof. pose proof HI as [H1 H2 H3 H4]. destruct s as [sr bl st w eof].
  unfold fill. unfold bufEnd, blen in *. scanner_fields. subst eof.
  remember (Z.of_nat (length w)) as n eqn:En.
  assert (Hn : 0 <= n) by lia.
  destruct ((0 <? st) && ((st + n =? bl) || (bl / 2 <? st))) eqn:Hshift;
    scanner_fields; unfold blen; rewrite <- ?En.
  - (* shifted to the front: the window is shorter than the buffer *)
    apply andb_true_iff in Hshift as [Hst _]. apply Z.ltb_lt in Hst.
    destruct (Z.eqb_spec (0 + n) bl); [lia|]. right.
    destruct (readMore_spec (mkScanner sr bl 0 w false)) as (s2 & E & I2 & M & W & B & F);
      [split; unfold bufEnd, blen; scanner_fields; auto; lia | reflexivity
      | unfold bufEnd, blen; scanner_fields; lia |].
    scanner_fields.
    refine (ex_intro _ s2 (conj E (conj I2 (conj M (conj W (conj _ (conj _ F))))))); lia.
  - (* not shifted *)
    assert (Hfull : st + n = bl -> st = 0).
    { intros E. apply andb_false_iff in Hshift as [C|C].
      - apply Z.ltb_ge in C. lia.
      - apply orb_false_iff in C as [C _]. apply Z.eqb_neq in C. lia. }
    destruct (Z.eqb_spec (st + n) bl) as [E|E].
    + specialize (Hfull E). subst st.
      destruct (Z.leb_spec maxTok bl) as [Hm|Hm]; [left; split; [reflexivity|lia]|].
      right. destruct (Z.eqb_spec (bl * 2) 0); [lia|].
      set (newSize := Z.min (bl * 2) maxTok).
      assert (bl < newSize <= maxTok) by (unfold newSize; lia).
      destruct (readMore_spec (mkScanner sr newSize 0 w false))
        as (s2 & E2 & I2 & M & W & B & F);
        [split; unfold bufEnd, blen; scanner_fields; auto; lia | reflexivity
        | unfold bufEnd, blen; scanner_fields; lia |].
      scanner_fields.
      refine (ex_intro _ s2 (conj E2 (conj I2 (conj M (conj W (conj _ (conj _ F))))))); lia.
    + right.
      destruct (readMore_spec (mkScanner sr bl st w false))
        as (s2 & E2 & I2 & M & W & B & F);
        [assumption | reflexivity | unfold bufEnd, blen; scanner_fields; lia |].
      scanner_fields.
      refine (ex_intro _ s2 (conj E2 (conj I2 (conj M (conj W (conj _ (conj _ F))))))); lia.
Qed.

Lemma advance_zero_id (s : Scanner) : advance s 0 = inr s.
Proof.
  unfold advance. pose proof (blen_nonneg (window s)).
  destruct (Z.ltb_spec 0 0); [lia|]. destruct (Z.ltb_spec (blen (window s)) 0); [lia|].
  destruct s as [sr bl st w eof]. scanner_fields.
  change (Z.to_nat 0) with 0%nat. rewrite drop_0, Z.add_0_r. reflexivity.
Qed.

Lemma advance_within (s : Scanner) (n : Z) :
  0 <= n <= blen (window s) ->
  advance s n = inr (mkScanner (src s) (bufLen s) (start s + n)
                               (drop (Z.to_nat n) (window s)) (sawEOF s)).
Proof.
  intros H. unfold advance.
  destruct (Z.ltb_spec n 0); [lia|]. destruct (Z.ltb_spec (blen (window s)) n); [lia|].
  reflexivity.
Qed.

(** When the closure cuts no token the turn is a [fill]. *)
Lemma scanStep_no_token (split : bytes -> bool -> Z * option bytes) (maxTok : Z) (s : Scanner) :
  (window s <> [] \/ sawEOF s = true -> split (window s) (sawEOF s) = (0, None)) ->
  scanStep split maxTok s = fill maxTok s.
Proof.
  intros H. unfold scanStep.
  destruct ((0 <? blen (window s)) || sawEOF s) eqn:C; [|reflexivity].
  rewrite H, advance_zero_id; [reflexivity|].
  apply orb_true_iff in C as [C|C]; [left | right; assumption].
  apply Z.ltb_lt in C. intros E. rewrite E in C. unfold blen in C. simpl in C. lia.
Qed.

(** When the closure cuts a token, the turn hands it to the caller and
    moves the window past the advance. *)
Lemma scanStep_token (split : bytes -> bool -> Z * option bytes) (maxTok : Z)
      (s : Scanner) (adv : Z) (t : bytes) :
  split (window s) (sawEOF s) = (adv, Some t) ->
  1 <= adv <= blen (window s) ->
  scanStep split maxTok s
  = Emit t (mkScanner (src s) (bufLen s) (start s + adv)
                      (drop (Z.to_nat adv) (window s)) (sawEOF s)).
Proof.
  intros H Hadv. unfold scanStep.
  destruct (Z.ltb_spec 0 (blen (window s))); [|lia]. cbn [orb].
  rewrite H, advance_within by lia. reflexivity.
Qed.

(** ** The read always ends, and a clean end is at the end of the file *)

Lemma scanLoop_total (maxTok : Z) (fuel : nat) : forall s,
  Inv s -> (scanMeasure s < fuel)%nat ->
  match scanLoop splitFunc maxTok fuel s with
  | (_, Finished s') => src s' = []
  | (_, Failed e) => True
  | (_, OutOfFuel) => False
  end.
Proof.
  induction fuel as [|fuel IH]; intros s HI Hm; [lia|].
  assert (Hfill : forall s1 s0, Inv s1 -> (scanMeasure s1 <= scanMeasure s)%nat ->
            (sawEOF s1 = true -> src s0 = []) ->
            match
              match fill maxTok s1 with
              | Emit t s' => let '(ts, o) := scanLoop splitFunc maxTok fuel s' in (t :: ts, o)
              | Again s' => scanLoop splitFunc maxTok fuel s'
              | Halt None => ([], Finished s0)
              | Halt (Some e) => ([], Failed e)
              end
            with
            | (_, Finished s') => src s' = []
            | (_, Failed e) => True
            | (_, OutOfFuel) => False
            end).
  { intros s1 s0 HI1 Hm1 H0. destruct (sawEOF s1) eqn:Heof.
    - unfold fill. rewrite Heof. apply H0. reflexivity.
    - destruct (fill_spec maxTok s1 HI1 Heof) as [[-> _] | (s2 & -> & I2 & M & _)]; [exact I|].
      apply IH; [assumption | lia]. }
  cbn [scanLoop]. unfold scanStep.
  destruct ((0 <? blen (window s)) || sawEOF s);
    [|apply Hfill; [assumption | lia | apply HI]].
  destruct (splitFunc (window s) (sawEOF s)) as [adv tok] eqn:Es.
  destruct (advance s adv) as [e|s'] eqn:Ea; [exact I|].
  destruct (advance_inv s s' adv HI Ea) as (I' & M' & Hadv & Hsrc & Heof & _).
  destruct tok as [t|].
  - apply splitFunc_token in Es.
    specialize (IH s' I' ltac:(lia)).
    destruct (scanLoop splitFunc maxTok fuel s') as [ts o]. exact IH.
  - apply Hfill; [assumption | lia |].
    rewrite Heof. apply HI.
Qed.

(** ** Reading whole lines *)


Lemma flat_cons (l : bytes) (ls : list bytes) : flat (l :: ls) = l ++ LF :: flat ls.
Proof. unfold flat. simpl. rewrite <- app_assoc. reflexivity. Qed.

(** Where the window stands in a file that begins with whole lines: it
    holds the first line and its line feed, or it is a delimiter-free
    prefix of the first line, or no line is left. *)
Lemma window_cases (maxTok : Z) (w r : bytes) (lines : list bytes) (rest : bytes) :
  w ++ r = flat lines ++ rest ->
  Forall (okLine maxTok) lines ->
  (exists l ls w', lines = l :: ls /\ plain l /\ w = l ++ LF :: w' /\
                   w' ++ r = flat ls ++ rest)
  \/ (lines <> [] /\ plain w /\ blen w < maxTok /\ r <> [])
  \/ (lines = [] /\ w ++ r = rest).
Proof.
  destruct lines as [|l ls]; intros E Hall.
  - right. right. split; [reflexivity | exact E].
  - apply Forall_cons in Hall as [[Hpl Hll] Hall].
    rewrite flat_cons, <- app_assoc in E. simpl in E.
    apply app_eq_app in E as [x [[-> E]|[-> E]]].
    + destruct x as [|b x].
      * right. left. rewrite app_nil_r. simpl in E. subst r.
        repeat split; [discriminate | assumption | lia | discriminate].
      * left. simpl in E. injection E as <- E.
        exists l, ls, x. repeat split; auto.
    + right. left. apply plain_app in Hpl as [Hw _]. rewrite blen_app in Hll.
      pose proof (blen_nonneg x). subst r.
      repeat split; [discriminate | assumption | lia | destruct x; discriminate].
Qed.

(** The same when what follows the lines is a trailing partial record. *)
Lemma window_cases_partial (maxTok : Z) (w r : bytes) (lines : list bytes) (partial : bytes) :
  w ++ r = flat lines ++ partial ->
  Forall (okLine maxTok) lines -> okLine maxTok partial ->
  (exists l ls w', lines = l :: ls /\ plain l /\ w = l ++ LF :: w' /\
                   w' ++ r = flat ls ++ partial)
  \/ (plain w /\ blen w < maxTok /\ (r = [] -> lines = [] /\ w = partial)).
Proof.
  intros E Hall [Hp Hl].
  destruct (window_cases maxTok w r lines partial E Hall)
    as [H | [(_ & Hw & Hlen & Hr) | (-> & E')]]; [left; exact H | right | right].
  - split; [assumption | split; [assumption|]]. intros C. contradiction.
  - subst partial. apply plain_app in Hp as [Hw _].
    rewrite blen_app in Hl. pose proof (blen_nonneg r).
    split; [assumption | split; [lia|]]. intros ->. rewrite app_nil_r. split; reflexivity.
Qed.

Lemma scanLoop_lines (maxTok : Z) (fuel : nat) : forall s lines partial,
  Inv s -> (scanMeasure s < fuel)%nat ->
  window s ++ src s = flat lines ++ partial ->
  Forall (okLine maxTok) lines -> okLine maxTok partial ->
  exists s', scanLoop splitFunc maxTok fuel s = (lines ++ tailRec partial, Finished s')
             /\ src s' = [].
Proof.
  induction fuel as [|fuel IH]; intros s lines partial HI Hm E Hall Hpart; [lia|].
  cbn [scanLoop].
  destruct (window_cases_partial maxTok _ _ _ _ E Hall Hpart)
    as [(l & ls & w' & -> & Hpl & Hw & E') | (Hpl & Hlen & Hr)].
  - (* the window holds a whole line *)
    pose proof (blen_nonneg l). pose proof (blen_nonneg w').
    rewrite (scanStep_token splitFunc maxTok s (blen l + 1) l).
    2:{ rewrite Hw. apply splitFunc_line. assumption. }
    2:{ rewrite Hw, blen_app, blen_cons. lia. }
    apply Forall_cons in Hall as [_ Hall].
    edestruct (IH (mkScanner (src s) (bufLen s) (start s + (blen l + 1))
                             (drop (Z.to_nat (blen l + 1)) (window s)) (sawEOF s))
                  ls partial) as (s' & -> & Hs'); try assumption.
    + destruct (advance_inv s _ (blen l + 1) HI (advance_within s (blen l + 1)
                  ltac:(rewrite Hw, blen_app, blen_cons; lia))) as (I' & _). exact I'.
    + unfold scanMeasure in *. scanner_fields. rewrite length_drop.
      rewrite Hw in *. rewrite length_app in *. simpl length in *. unfold blen. lia.
    + scanner_fields. rewrite Hw.
      replace (l ++ LF :: w') with ((l ++ [LF]) ++ w') by (rewrite <- app_assoc; reflexivity).
      replace (blen l + 1) with (blen (l ++ [LF])) by (rewrite blen_app; reflexivity).
      rewrite drop_blen_app. exact E'.
    + exists s'. split; [reflexivity | assumption].
  - (* the window is a delimiter-free prefix of the first record *)
    destruct (sawEOF s) eqn:Heof.
    + (* the file is exhausted: the window is the trailing partial record *)
      pose proof (inv_eof s HI Heof) as Hsrc.
      destruct (Hr Hsrc) as [-> Hwp]. simpl.
      destruct partial as [|b p].
      * rewrite scanStep_no_token by (intros _; rewrite Hwp, Heof; reflexivity).
        unfold fill. rewrite Heof. exists s. split; [reflexivity | assumption].
      * rewrite (scanStep_token splitFunc maxTok s (blen (b :: p)) (b :: p)).
        2:{ rewrite Hwp, Heof. apply splitFunc_plain_eof; [apply Hpart | discriminate]. }
        2:{ rewrite Hwp, blen_cons. pose proof (blen_nonneg p). lia. }
        edestruct (IH (mkScanner (src s) (bufLen s) (start s + blen (b :: p))
                                 (drop (Z.to_nat (blen (b :: p))) (window s)) (sawEOF s))
                      [] []) as (s' & -> & Hs').
        -- destruct (advance_inv s _ (blen (b :: p)) HI (advance_within s (blen (b :: p))
                      ltac:(rewrite Hwp; pose proof (blen_nonneg (b :: p)); lia))) as (I' & _).
           exact I'.
        -- unfold scanMeasure in *. scanner_fields. rewrite length_drop.
           rewrite Hwp in *. unfold blen. simpl length in *. lia.
        -- scanner_fields. rewrite Hwp, Hsrc. unfold blen. rewrite Nat2Z.id, drop_all.
           reflexivity.
        -- constructor.
        -- split; [constructor|]. change (blen []) with 0.
           pose proof (blen_nonneg (window s)). lia.
        -- exists s'. split; [reflexivity | assumption].
    + (* more may come: read *)
      rewrite scanStep_no_token.
      2:{ intros _. rewrite Heof. apply splitFunc_plain_more. assumption. }
      destruct (fill_spec maxTok s HI Heof) as [[_ F] | (s2 & -> & I2 & M & W & _)]; [lia|].
      apply IH; try assumption; [lia | congruence].
Qed.

(** A read that starts after [pre] in a file of whole lines and a
    trailing partial record delivers the lines, then the partial record,
    and returns the length of the file. *)
Lemma readFromPos_lines (pre : bytes) (lines : list bytes) (partial : bytes) :
  Forall (okLine maxRecordSize) lines -> okLine maxRecordSize partial ->
  readFromPos (Some (pre ++ flat lines ++ partial)) (blen pre)
  = mkRead (blen (pre ++ flat lines ++ partial)) (lines ++ tailRec partial) ReadOK.
Proof.
  intros Hall Hpart. unfold readFromPos.
  pose proof (blen_nonneg pre).
  destruct (Z.ltb_spec (blen pre) 0); [lia|].
  rewrite drop_blen_app. unfold scanAll.
  set (s0 := newScanner (flat lines ++ partial) initialBufCap).
  destruct (scanLoop_lines maxRecordSize (S (scanMeasure s0)) s0 lines partial)
    as (s' & -> & Hs'); try assumption.
  - apply newScanner_inv. reflexivity.
  - lia.
  - reflexivity.
  - rewrite Hs'. f_equal. rewrite !blen_app. change (blen []) with 0. lia.
Qed.

(** ** A record at or over the cap *)

Lemma prefix_of_app (w r a b : bytes) :
  w ++ r = a ++ b -> blen w <= blen a -> exists x, a = w ++ x /\ r = x ++ b.
Proof.
  intros E Hle. apply app_eq_app in E as [x [[-> E]|[-> E]]].
  - rewrite blen_app in Hle. pose proof (blen_nonneg x).
    assert (x = []) as -> by (destruct x; [reflexivity | rewrite blen_cons in Hle;
                                pose proof (blen_nonneg x); lia]).
    exists []. rewrite !app_nil_r. subst. simpl. split; reflexivity.
  - exists x. split; [reflexivity | assumption].
Qed.

(** Whole lines followed by a delimiter-free run of at least [maxTok]
    bytes: the lines are handed over, then the scanner doubles its
    buffer up to the cap and gives up. *)
Lemma scanLoop_lines_too_long (maxTok : Z) (big post : bytes) (fuel : nat) :
  plain big -> maxTok <= blen big ->
  forall s lines,
  Inv s -> sawEOF s = false -> bufLen s <= maxTok ->
  (scanMeasure s < fuel)%nat ->
  window s ++ src s = flat lines ++ big ++ post ->
  Forall (okLine maxTok) lines ->
  scanLoop splitFunc maxTok fuel s = (lines, Failed ErrTooLong).
Proof.
  intros Hpl Hbig.
  induction fuel as [|fuel IH]; intros s lines HI Heof Hcap Hm E Hall; [lia|].
  cbn [scanLoop].
  destruct (window_cases maxTok _ _ _ _ E Hall)
    as [(l & ls & w' & -> & Hl & Hw & E') | [(_ & Hw & Hlen & Hr) | (-> & E')]].
  - (* the window holds a whole line *)
    pose proof (blen_nonneg l). pose proof (blen_nonneg w').
    rewrite (scanStep_token splitFunc maxTok s (blen l + 1) l).
    2:{ rewrite Hw. apply splitFunc_line. assumption. }
    2:{ rewrite Hw, blen_app, blen_cons. lia. }
    apply Forall_cons in Hall as [_ Hall].
    set (s1 := mkScanner (src s) (bufLen s) (start s + (blen l + 1))
                         (drop (Z.to_nat (blen l + 1)) (window s)) (sawEOF s)).
    assert (I1 : Inv s1).
    { destruct (advance_inv s _ (blen l + 1) HI (advance_within s (blen l + 1)
                  ltac:(rewrite Hw, blen_app, blen_cons; lia))) as (I' & _). exact I'. }
    assert (M1 : (scanMeasure s1 < fuel)%nat).
    { unfold s1, scanMeasure in *. scanner_fields. rewrite length_drop.
      rewrite Hw in *. rewrite length_app in *. simpl length in *. unfold blen. lia. }
    assert (E1 : window s1 ++ src s1 = flat ls ++ big ++ post).
    { unfold s1. scanner_fields. rewrite Hw.
      replace (l ++ LF :: w') with ((l ++ [LF]) ++ w') by (rewrite <- app_assoc; reflexivity).
      replace (blen l + 1) with (blen (l ++ [LF])) by (rewrite blen_app; reflexivity).
      rewrite drop_blen_app. exact E'. }
    rewrite (IH s1 ls I1 Heof Hcap M1 E1 Hall). reflexivity.
  - (* the window is a prefix of the first line: read on *)
    rewrite scanStep_no_token
      by (intros _; rewrite Heof; apply splitFunc_plain_more; assumption).
    destruct (fill_spec maxTok s HI Heof)
      as [[_ F] | (s2 & -> & I2 & M & W & _ & B & Z)]; [lia|].
    apply IH; auto; [lia | congruence].
  - (* the window is a prefix of the long run *)
    assert (Hwin : blen (window s) <= bufLen s)
      by (destruct HI as [H1 H2 _ _]; unfold bufEnd in H2; lia).
    destruct (prefix_of_app _ _ _ _ E' ltac:(lia)) as (x & Hx & Hsrc).
    assert (Hw : plain (window s)) by (rewrite Hx in Hpl; apply plain_app in Hpl; tauto).
    rewrite scanStep_no_token
      by (intros _; rewrite Heof; apply splitFunc_plain_more; assumption).
    destruct (fill_spec maxTok s HI Heof)
      as [[-> _] | (s2 & -> & I2 & M & W & L & B & Z)]; [reflexivity|].
    apply IH; auto; [|lia|congruence].
    apply Z. intros C. rewrite C in Hsrc. symmetry in Hsrc.
    apply app_eq_nil in Hsrc as [-> _]. rewrite app_nil_r in Hx. subst big. lia.
Qed.

Lemma readFromPos_lines_too_long (pre : bytes) (lines : list bytes) (big post : bytes) :
  Forall (okLine maxRecordSize) lines ->
  plain big -> maxRecordSize <= blen big ->
  readFromPos (Some (pre ++ flat lines ++ big ++ post)) (blen pre)
  = mkRead (blen pre) lines (ScanFailed ErrTooLong).
Proof.
  intros Hall Hpl Hbig. unfold readFromPos. pose proof (blen_nonneg pre).
  destruct (Z.ltb_spec (blen pre) 0); [lia|].
  rewrite drop_blen_app. unfold scanAll.
  rewrite (scanLoop_lines_too_long maxRecordSize big post _ Hpl Hbig _ lines);
    try assumption; try reflexivity.
  - apply newScanner_inv. reflexivity.
  - cbn [newScanner bufLen]. unfold initialBufCap, maxRecordSize. lia.
  - lia.
Qed.

Lemma readFromPos_too_long (pre big post : bytes) :
  plain big -> maxRecordSize <= blen big ->
  readFromPos (Some (pre ++ big ++ post)) (blen pre)
  = mkRead (blen pre) [] (ScanFailed ErrTooLong).
Proof. intros Hpl Hbig. apply (readFromPos_lines_too_long pre [] big post); auto. Qed.

(** ** CR LF lines inside one buffer *)

Lemma flatCRLF_cons (l : bytes) (ls : list bytes) :
  flatCRLF (l :: ls) = l ++ CR :: LF :: flatCRLF ls.
Proof. unfold flatCRLF. simpl. rewrite <- app_assoc. reflexivity. Qed.

(** The first turn of a scan whose input fits the buffer reads all of
    it. *)
Lemma scanStep_first_read (split : bytes -> bool -> Z * option bytes) (maxTok cap : Z)
      (data : bytes) :
  data <> [] -> blen data <= cap ->
  scanStep split maxTok (newScanner data cap) = Again (mkScanner [] cap 0 data false).
Proof.
  intros Hne Hcap. rewrite scanStep_no_token
    by (intros [C|C]; [exfalso; apply C; reflexivity | discriminate C]).
  assert (0 < blen data).
  { destruct data; [congruence|]. rewrite blen_cons. pose proof (blen_nonneg data). lia. }
  unfold fill, newScanner. cbn [sawEOF start]. change (0 <? 0) with false. cbn [andb].
  unfold bufEnd. cbn [start window bufLen]. change (blen []) with 0.
  destruct (Z.eqb_spec (0 + 0) cap); [lia|].
  unfold readMore, bufEnd. cbn [src start window bufLen]. change (blen []) with 0.
  destruct data as [|b data]; [congruence|].
  destruct (Z.leb_spec (cap - (0 + 0)) 0); [lia|].
  rewrite take_ge, drop_ge by (unfold blen in Hcap; lia). reflexivity.
Qed.

(** Once all of the file is in the window, every CR LF pair is seen
    whole, and CR LF lines are cut like LF lines. *)
Lemma scanLoop_crlf_window (maxTok : Z) (partial : bytes) (lines : list bytes) :
  Forall plain lines -> okLine maxTok partial ->
  forall fuel s,
  Inv s -> src s = [] -> (scanMeasure s < fuel)%nat ->
  window s = flatCRLF lines ++ partial ->
  exists s', scanLoop splitFunc maxTok fuel s = (lines ++ tailRec partial, Finished s')
             /\ src s' = [].
Proof.
  intros Hall Hpart. induction Hall as [|l ls Hl _ IH]; intros fuel s HI Hsrc Hm Hw.
  - apply (scanLoop_lines maxTok fuel s [] partial); auto.
    rewrite Hsrc, app_nil_r. exact Hw.
  - destruct fuel as [|fuel]; [lia|]. cbn [scanLoop].
    rewrite flatCRLF_cons, <- app_assoc in Hw. simpl in Hw.
    pose proof (blen_nonneg l). pose proof (blen_nonneg (flatCRLF ls ++ partial)).
    rewrite (scanStep_token splitFunc maxTok s (blen l + 2) l).
    2:{ rewrite Hw. apply splitFunc_crlf. assumption. }
    2:{ rewrite Hw, blen_app, !blen_cons. lia. }
    set (s1 := mkScanner (src s) (bufLen s) (start s + (blen l + 2))
                         (drop (Z.to_nat (blen l + 2)) (window s)) (sawEOF s)).
    assert (W1 : window s1 = flatCRLF ls ++ partial).
    { unfold s1. cbn [window]. rewrite Hw.
      replace (l ++ CR :: LF :: flatCRLF ls ++ partial)
        with ((l ++ [CR; LF]) ++ flatCRLF ls ++ partial) by (rewrite <- app_assoc; reflexivity).
      replace (blen l + 2) with (blen (l ++ [CR; LF])) by (rewrite blen_app; reflexivity).
      apply drop_blen_app. }
    assert (I1 : Inv s1).
    { destruct (advance_inv s _ (blen l + 2) HI (advance_within s (blen l + 2)
                  ltac:(rewrite Hw, blen_app, !blen_cons; lia))) as (I' & _). exact I'. }
    assert (M1 : (scanMeasure s1 < fuel)%nat).
    { unfold scanMeasure in *. rewrite W1. unfold s1. cbn [src sawEOF].
      rewrite Hw in Hm. rewrite length_app in Hm. simpl length in Hm. lia. }
    destruct (IH fuel s1 I1 Hsrc M1 W1) as (s' & -> & Hs').
    exists s'. split; [reflexivity | assumption].
Qed.

(** A read whose unread bytes fit the 64KB buffer delivers CR LF lines
    exactly as it delivers the same lines ended by LF. *)
Lemma readFromPos_crlf_lines (pre : bytes) (lines : list bytes) (partial : bytes) :
  Forall plain lines -> plain partial ->
  blen (flatCRLF lines ++ partial) <= initialBufCap ->
  readFromPos (Some (pre ++ flatCRLF lines ++ partial)) (blen pre)
  = mkRead (blen (pre ++ flatCRLF lines ++ partial)) (lines ++ tailRec partial) ReadOK.
Proof.
  intros Hall Hpart Hfit.
  assert (Hok : okLine maxRecordSize partial).
  { split; [assumption|]. rewrite blen_app in Hfit.
    pose proof (blen_nonneg (flatCRLF lines)). unfold initialBufCap, maxRecordSize in *. lia. }
  destruct (decide (flatCRLF lines ++ partial = [])) as [E|Hne].
  - (* nothing to read *)
    apply app_eq_nil in E as [E1 E2].
    assert (lines = []) as ->.
    { destruct lines as [|l0 ls0]; [reflexivity|].
      rewrite flatCRLF_cons in E1. destruct l0; discriminate. }
    subst partial. apply (readFromPos_lines pre [] []); [constructor | assumption].
  - unfold readFromPos. pose proof (blen_nonneg pre).
    destruct (Z.ltb_spec (blen pre) 0); [lia|].
    rewrite drop_blen_app. unfold scanAll.
    set (data := flatCRLF lines ++ partial) in *.
    cbn [scanLoop]. rewrite scanStep_first_read by assumption.
    destruct (scanLoop_crlf_window maxRecordSize partial lines Hall Hok
                (scanMeasure (newScanner data initialBufCap))
                (mkScanner [] initialBufCap 0 data false)) as (s' & -> & Hs').
    + split; unfold bufEnd; cbn [start window bufLen sawEOF src];
        try lia; try reflexivity; discriminate.
    + reflexivity.
    + unfold scanMeasure, newScanner. cbn [src window sawEOF]. simpl length.
      assert (0 < length data)%nat by (destruct data; [congruence | simpl; lia]). lia.
    + reflexivity.
    + rewrite Hs'. f_equal. rewrite !blen_app. change (blen []) with 0. lia.
Qed.

(** * The tailer's claims *)

Lemma readFromPos_closed (startPos : Z) :
  readFromPos None startPos = mkRead startPos [] OpenFailed.
Proof. reflexivity. Qed.

(** How a read of an open file ends, and where it leaves the offset. *)
Lemma readFromPos_exit (content : bytes) (startPos : Z) :
  let r := readFromPos (Some content) startPos in
  match exit r with
  | ReadOK => newPos r = Z.max (blen content) (Z.max 0 startPos)
  | ScanFailed _ => newPos r = startPos
  | OpenFailed | ReadStuck => False
  end.
Proof.
  unfold readFromPos. cbv zeta.
  set (off := if startPos <? 0 then 0 else startPos).
  assert (Hoff : off = Z.max 0 startPos) by (unfold off; destruct (Z.ltb_spec startPos 0); lia).
  set (unread := drop (Z.to_nat off) content).
  set (s0 := newScanner unread initialBufCap).
  pose proof (scanLoop_total maxRecordSize (S (scanMeasure s0)) s0
                (newScanner_inv unread initialBufCap eq_refl) ltac:(lia)) as T.
  unfold scanAll. destruct (scanLoop _ _ _ s0) as [recs [s'|e|]]; cbn [exit newPos].
  - rewrite T. change (blen []) with 0. unfold unread, blen. rewrite length_drop.
    unfold blen in Hoff. lia.
  - reflexivity.
  - exact T.
Qed.

Lemma tailLoop_failed_poll (f : FileState) (pos : Z) (evs : list Event) :
  exit (readFromPos f pos) <> ReadOK ->
  tailLoop (Tick f :: evs) pos
  = (mkCall pos false (readFromPos f pos) :: (tailLoop evs pos).1, (tailLoop evs pos).2).
Proof.
  intros H. cbn [tailLoop].
  assert (E : newPos (readFromPos f pos) = pos).
  { destruct f as [content|]; [|reflexivity].
    pose proof (readFromPos_exit content pos) as X. cbv zeta in X.
    destruct (exit (readFromPos (Some content) pos)); try contradiction; assumption. }
  rewrite E. destruct (tailLoop evs pos). reflexivity.
Qed.

(** C2. A read that fails, because the file cannot be opened or because
    the scan fails, returns the starting offset; a read that succeeds
    returns the end of the file (the starting offset when that already
    lies beyond it); a read always ends in one of these ways.  A
    delimiter-free run of at least 5MB makes the scan fail, after the
    whole lines before it have been handed over, and the offset stays at
    the start.  After a failed poll the loop reads from the same offset
    again. *)
Theorem readFromPos_offset :
  (forall startPos, readFromPos None startPos = mkRead startPos [] OpenFailed)
  /\ (forall content startPos,
        let r := readFromPos (Some content) startPos in
        match exit r with
        | ReadOK => newPos r = Z.max (blen content) (Z.max 0 startPos)
        | ScanFailed _ => newPos r = startPos
        | OpenFailed | ReadStuck => False
        end)
  /\ (forall pre lines big post,
        Forall (okLine maxRecordSize) lines ->
        plain big -> maxRecordSize <= blen big ->
        readFromPos (Some (pre ++ flat lines ++ big ++ post)) (blen pre)
        = mkRead (blen pre) lines (ScanFailed ErrTooLong))
  /\ (forall f pos evs,
        exit (readFromPos f pos) <> ReadOK ->
        tailLoop (Tick f :: evs) pos
        = (mkCall pos false (readFromPos f pos) :: (tailLoop evs pos).1,
           (tailLoop evs pos).2)).
Proof.
  split; [exact readFromPos_closed|].
  split; [exact readFromPos_exit|].
  split; [exact readFromPos_lines_too_long | exact tailLoop_failed_poll].
Qed.

Lemma plain_repeat (n : nat) : plain (repeat x61 n).
Proof.
  apply Forall_forall. intros b Hb. apply list_elem_of_In, repeat_spec in Hb.
  subst b. reflexivity.
Qed.

Lemma okLine_small (l : bytes) :
  forallb (fun b => negb (isDelim b)) l = true -> (blen l <? maxRecordSize) = true ->
  okLine maxRecordSize l.
Proof.
  intros H1 H2. split; [|apply Z.ltb_lt; assumption].
  apply Forall_forall. intros b Hb. rewrite forallb_forall in H1.
  apply list_elem_of_In in Hb. apply H1 in Hb. destruct (isDelim b); [discriminate | reflexivity].
Qed.

(** A file holding the line [ok] and then an undelimited run of exactly
    5MB: the line is handed over, the read fails, and the offset stays
    where it was. *)
Lemma readFromPos_offset_witness :
  readFromPos (Some ([] ++ flat [str "ok"] ++ repeat x61 (Z.to_nat maxRecordSize) ++ []))
              (blen [])
  = mkRead (blen []) [str "ok"] (ScanFailed ErrTooLong).
Proof.
  apply (proj1 (proj2 (proj2 readFromPos_offset))).
  - repeat constructor; apply okLine_small; reflexivity.
  - apply plain_repeat.
  - unfold blen. rewrite repeat_length. lia.
Defined.

(** ** C1: whole lines, across the polls and the drain *)

Lemma tailLoop_whole_lines (final : list bytes) (partial : bytes)
      (groups : list (option (list bytes))) :
  forall written,
  Forall (okLine maxRecordSize) (printed groups final partial) ->
  exists calls,
    tailLoop (pollSchedule written groups final partial) (blen written) = (calls, true)
    /\ recordsOf calls = printed groups final partial.
Proof.
  unfold printed.
  induction groups as [|[g|] gs IH]; intros written Hall; cbn [pollSchedule tailLoop].
  - simpl in Hall. apply Forall_app in Hall as [Hfin Hpart].
    eexists. split; [reflexivity|].
    rewrite readFromPos_lines; [|assumption|].
    + unfold recordsOf. simpl. rewrite !app_nil_r. reflexivity.
    + destruct partial as [|b p]; [split; [constructor | reflexivity]|].
      apply Forall_cons in Hpart as [Hpart _]. exact Hpart.
  - cbn [map concat default] in Hall. rewrite <- app_assoc in Hall.
    apply Forall_app in Hall as [Hg Hrest].
    replace (written ++ flat g) with (written ++ flat g ++ []) by (rewrite app_nil_r; reflexivity).
    rewrite readFromPos_lines; [|assumption|split; [constructor | reflexivity]].
    cbn [newPos]. rewrite app_nil_r.
    destruct (IH (written ++ flat g) Hrest) as (calls & -> & Hrec).
    eexists. split; [reflexivity|].
    unfold recordsOf in *. cbn [map concat result delivered default tailRec].
    rewrite app_nil_r, Hrec, <- app_assoc. reflexivity.
  - cbn [map concat default] in Hall. simpl in Hall.
    rewrite readFromPos_closed. cbn [newPos].
    destruct (IH written Hall) as (calls & -> & Hrec).
    eexists. split; [reflexivity|].
    unfold recordsOf in *. cbn [map concat result delivered default].
    simpl. exact Hrec.
Qed.

(** C1, as the code has it.  When every poll finds the file at a line
    boundary (or cannot open it), the final drain can open it, and the
    printed lines are free of delimiters and shorter than the 5MB cap
    (the last one may lack its line feed), the handler receives exactly
    the printed lines, in order, once each, and the tailer returns. *)
Theorem tail_delivers_whole_lines (groups : list (option (list bytes)))
        (final : list bytes) (partial : bytes) :
  Forall (okLine maxRecordSize) (printed groups final partial) ->
  exists calls,
    tailStdPipe (pollSchedule [] groups final partial) = (calls, true)
    /\ recordsOf calls = printed groups final partial.
Proof. intros H. exact (tailLoop_whole_lines final partial groups [] H). Qed.

Lemma tail_delivers_whole_lines_witness :
  exists calls,
    tailStdPipe (pollSchedule [] [Some [str "ab"]; None; Some [str "cd"; str "ef"]]
                              [str "gh"] (str "ij"))
    = (calls, true)
    /\ recordsOf calls = [str "ab"; str "cd"; str "ef"; str "gh"; str "ij"].
Proof.
  apply (tail_delivers_whole_lines [Some [str "ab"]; None; Some [str "cd"; str "ef"]]
           [str "gh"] (str "ij")).
  repeat constructor; apply okLine_small; reflexivity.
Defined.

(** C1, as stated, fails: a line written in two pieces with a poll in
    between reaches the handler as two records. *)
Lemma tail_splits_line_seen_half_written :
  let run := tailStdPipe [Tick (Some (str "hel")); DoneSig (Some (str "hello" ++ [LF]))] in
  snd run = true
  /\ recordsOf (fst run) = [str "hel"; str "lo"]
  /\ recordsOf (fst run) <> [str "hello"].
Proof. vm_compute. repeat split; discriminate. Qed.

(** ** C4: the trailing partial record *)




(** ** C3: CR LF *)

(** Inside one slice a CR LF pair is one delimiter and leaves no empty
    record: a CR LF line and an LF line cut the same token. *)
Lemma splitFunc_crlf_as_lf (l tl : bytes) (e : bool) :
  plain l ->
  snd (splitFunc (l ++ CR :: LF :: tl) e) = snd (splitFunc (l ++ LF :: tl) e)
  /\ drop (Z.to_nat (fst (splitFunc (l ++ CR :: LF :: tl) e))) (l ++ CR :: LF :: tl) = tl.
Proof.
  intros H. rewrite splitFunc_crlf, splitFunc_line by assumption. split; [reflexivity|].
  cbn [fst].
  replace (l ++ CR :: LF :: tl) with ((l ++ [CR; LF]) ++ tl) by (rewrite <- app_assoc; reflexivity).
  replace (blen l + 2) with (blen (l ++ [CR; LF])) by (rewrite blen_app; reflexivity).
  apply drop_blen_app.
Qed.

Lemma okLines_within_buffer (lines : list bytes) :
  Forall plain lines -> blen (flatCRLF lines) <= initialBufCap ->
  Forall (okLine maxRecordSize) lines.
Proof.
  induction 1 as [|l ls Hl _ IH]; intros Hfit; constructor.
  - split; [assumption|]. rewrite flatCRLF_cons, blen_app in Hfit.
    pose proof (blen_nonneg (CR :: LF :: flatCRLF ls)).
    unfold initialBufCap, maxRecordSize in *. lia.
  - apply IH. rewrite flatCRLF_cons, blen_app, !blen_cons in Hfit.
    pose proof (blen_nonneg l). lia.
Qed.

(** Where C3 holds: when the unread bytes fit the 64KB buffer of one
    read, lines ended by CR LF are delivered as the same lines ended by
    LF are. *)
Lemma crlf_as_lf_within_buffer (pre : bytes) (lines : list bytes) :
  Forall plain lines -> blen (flatCRLF lines) <= initialBufCap ->
  delivered (readFromPos (Some (pre ++ flatCRLF lines)) (blen pre)) = lines
  /\ delivered (readFromPos (Some (pre ++ flat lines)) (blen pre)) = lines.
Proof.
  intros Hall Hfit.
  pose proof (readFromPos_crlf_lines pre lines [] Hall ltac:(constructor)) as A.
  pose proof (readFromPos_lines pre lines [] (okLines_within_buffer lines Hall Hfit)
                ltac:(split; [constructor | reflexivity])) as B.
  rewrite !app_nil_r in A, B. rewrite A, B by assumption. split; reflexivity.
Qed.

(** C3 at a failing input.  A line of 65535 bytes ended by CR LF is
    65537 bytes long: the first read fills the 64KB buffer up to the CR,
    the closure takes the CR at the end of its slice for a delimiter of
    its own, and the LF that the next read brings yields an empty record.
    The same line ended by LF alone yields one record. *)
Theorem crlf_across_buffer_boundary :
  let line := repeat x61 (Z.to_nat 65535) in
  readFromPos (Some (line ++ [CR; LF])) 0 = mkRead 65537 [line; []] ReadOK
  /\ readFromPos (Some (line ++ [LF])) 0 = mkRead 65536 [line] ReadOK.
Proof.
  cbv zeta. set (line := repeat x61 (Z.to_nat 65535)).
  assert (H : forall r p recs, bool_decide (newPos r = p) && bool_decide (delivered r = recs)
                  && match exit r with ReadOK => true | _ => false end = true ->
              r = mkRead p recs ReadOK).
  { intros [p' recs' e] p recs H. cbn in H.
    apply andb_true_iff in H as [H He]. apply andb_true_iff in H as [Hp Hr].
    apply bool_decide_eq_true in Hp, Hr. subst. destruct e; try discriminate. reflexivity. }
  split; apply H; vm_compute; reflexivity.
Qed.

(** The same happens between two polls: a poll that finds the file
    ending in CR takes it for a delimiter, and the LF found by the next
    read yields an empty record. *)
Example crlf_across_polls :
  recordsOf (fst (tailStdPipe [Tick (Some (str "a" ++ [CR]));
                               DoneSig (Some (str "a" ++ [CR; LF] ++ str "b" ++ [LF]))]))
  = [str "a"; []; str "b"].
Proof. vm_compute. reflexivity. Qed.

(** ** C8: the final drain *)

Lemma readFromPos_nonneg (f : FileState) (pos : Z) :
  0 <= pos -> 0 <= newPos (readFromPos f pos).
Proof.
  intros H. destruct f as [content|]; [|exact H].
  pose proof (readFromPos_exit content pos) as X. cbv zeta in X.
  destruct (exit (readFromPos (Some content) pos)); try contradiction; lia.
Qed.

Lemma tailLoop_done (ticks : list FileState) (f : FileState) (later : list Event) :
  forall pos, 0 <= pos -> exists polls,
    let from := match last polls with Some c => newPos (result c) | None => pos end in
    tailLoop (map Tick ticks ++ DoneSig f :: later) pos
    = (polls ++ [mkCall from true (readFromPos f from)], true)
    /\ length polls = length ticks
    /\ Forall (fun c => isDrain c = false) polls
    /\ 0 <= from.
Proof.
  induction ticks as [|t ticks IH]; intros pos Hpos; cbn [map app tailLoop].
  - exists []. repeat split; [constructor | exact Hpos].
  - destruct (IH (newPos (readFromPos t pos)) (readFromPos_nonneg t pos Hpos))
      as (polls & E & Hlen & Hall & Hfrom).
    cbv zeta in E, Hfrom. rewrite E.
    exists (mkCall pos false (readFromPos t pos) :: polls).
    cbv zeta. rewrite last_cons. split; [|split; [|split]].
    + destruct (last polls); reflexivity.
    + simpl. congruence.
    + constructor; [reflexivity | assumption].
    + destruct (last polls); exact Hfrom.
Qed.

(** C8. Whatever the polls before it, when [done] fires the loop makes one
    more read, from the offset the last poll left, and returns; nothing
    that [select] could offer afterwards is looked at.  That read ends
    (it is never stuck), and when it succeeds it ends at the end of the
    file (at its own start if the file is shorter than that).  Before
    [done] the loop does not return. *)
Theorem tail_drains_once_and_returns (ticks : list FileState) (f : FileState)
        (later : list Event) :
  (exists polls drain,
      tailStdPipe (map Tick ticks ++ DoneSig f :: later) = (polls ++ [drain], true)
      /\ length polls = length ticks
      /\ Forall (fun c => isDrain c = false) polls
      /\ isDrain drain = true
      /\ atPos drain = lastOffset polls
      /\ result drain = readFromPos f (lastOffset polls)
      /\ exit (result drain) <> ReadStuck
      /\ (forall content, f = Some content -> exit (result drain) = ReadOK ->
           newPos (result drain) = Z.max (blen content) (lastOffset polls)))
  /\ snd (tailStdPipe (map Tick ticks)) = false.
Proof.
  split.
  - destruct (tailLoop_done ticks f later 0 ltac:(lia)) as (polls & E & Hlen & Hall & Hfrom).
    cbv zeta in E, Hfrom. fold (lastOffset polls) in E, Hfrom.
    eexists polls, _. split; [exact E|]. cbn [isDrain atPos result].
    repeat split; try assumption.
    + destruct f as [content|]; [|discriminate].
      pose proof (readFromPos_exit content (lastOffset polls)) as X. cbv zeta in X.
      intros C. rewrite C in X. exact X.
    + intros content -> Hok.
      pose proof (readFromPos_exit content (lastOffset polls)) as X. cbv zeta in X.
      rewrite Hok in X. lia.
  - unfold tailStdPipe. generalize 0. induction ticks as [|t ticks IH]; intros pos.
    + reflexivity.
    + cbn [map tailLoop]. specialize (IH (newPos (readFromPos t pos))).
      destruct (tailLoop (map Tick ticks) _). exact IH.
Qed.

(** * The registry, status and seek *)

Lemma getCommandKernel_store (m : Registry) (id : string) (k : option commandKernel) :
  getCommandKernel (storeCommandKernel m id k) id = k.
Proof. unfold getCommandKernel, storeCommandKernel. rewrite lookup_insert_eq. reflexivity. Qed.

Lemma getCommandKernel_store_other (m : Registry) (id id' : string) (k : option commandKernel) :
  id <> id' ->
  getCommandKernel (storeCommandKernel m id k) id' = getCommandKernel m id'.
Proof.
  intros H. unfold getCommandKernel, storeCommandKernel.
  rewrite lookup_insert_ne by assumption. reflexivity.
Qed.

Lemma getCommandKernel_fresh (id : string) : getCommandKernel ∅ id = None.
Proof. unfold getCommandKernel. rewrite lookup_empty. reflexivity. Qed.

Lemma storeAll_snoc (stores : list (string * option commandKernel))
      (st : string * option commandKernel) :
  storeAll (stores ++ [st]) = storeCommandKernel (storeAll stores) st.1 st.2.
Proof. unfold storeAll. rewrite foldl_app. reflexivity. Qed.

(** C9. A kernel stored under an id is the one a lookup of that id
    returns; an id under which nothing was ever stored yields [nil]; and a
    store under one id leaves the lookups of all other ids as they were. *)
Theorem registry_round_trip :
  (forall (m : Registry) id k, getCommandKernel (storeCommandKernel m id k) id = k)
  /\ (forall stores id, id ∉ stores.*1 -> getCommandKernel (storeAll stores) id = None)
  /\ (forall (m : Registry) id id' k,
        id <> id' ->
        getCommandKernel (storeCommandKernel m id k) id' = getCommandKernel m id').
Proof.
  split; [exact getCommandKernel_store|]. split; [|exact getCommandKernel_store_other].
  intros stores id. induction stores as [|st stores IH] using rev_ind; intros Hid.
  - apply getCommandKernel_fresh.
  - rewrite fmap_app, not_elem_of_app in Hid. destruct Hid as [H1 H2].
    rewrite storeAll_snoc, getCommandKernel_store_other; [auto|].
    intros E. apply H2. simpl. rewrite E. apply list_elem_of_singleton. reflexivity.
Qed.

(** C7. A session id that is not in the registry makes [GetCommandStatus]
    fail with [NotFound], and the handler answers with status 404 (an
    empty id never reaches the runtime: the handler refuses it first). *)
Theorem status_of_unknown_session (m : Registry) (id : string)
        (errorText : RuntimeErr -> string) :
  m !! id = None ->
  GetCommandStatus m id = inl (NotFound id)
  /\ (id <> ""%string ->
      Web.GetCommandStatus (GetCommandStatus m) errorText id
      = Web.RespondError Web.StatusNotFound Web.ErrorCodeInvalidRequest (errorText (NotFound id))).
Proof.
  intros H.
  assert (E : GetCommandStatus m id = inl (NotFound id)).
  { unfold GetCommandStatus, getCommandKernel. rewrite H. reflexivity. }
  split; [exact E|]. intros Hne. unfold Web.GetCommandStatus.
  destruct (String.eqb_spec id ""); [contradiction|]. rewrite E. reflexivity.
Qed.

Lemma status_of_unknown_session_witness :
  GetCommandStatus ∅ "missing" = inl (NotFound "missing")
  /\ ("missing"%string <> ""%string ->
      Web.GetCommandStatus (GetCommandStatus ∅) (fun _ => "not found"%string) "missing"
      = Web.RespondError Web.StatusNotFound Web.ErrorCodeInvalidRequest "not found").
Proof.
  apply (status_of_unknown_session ∅ "missing" (fun _ => "not found"%string)).
  apply lookup_empty.
Defined.

(** C5. For a session in the registry, a seek from a cursor at or beyond
    the end of the captured output returns no bytes and the same cursor,
    without error; after any successful seek, a seek from the returned
    cursor returns no bytes and that cursor again; and once bytes have
    been appended, a seek from the end of the old output returns them. *)
Theorem seek_at_or_past_end (m : Registry) (fs : string -> bytes) (id : string)
        (k : commandKernel) (cursor : Z) :
  getCommandKernel m id = Some k ->
  blen (fs (stdoutPath k)) <= cursor ->
  SeekBackgroundCommandOutput m fs id cursor = inr ([], cursor)
  /\ (forall c out c',
        SeekBackgroundCommandOutput m fs id c = inr (out, c') ->
        SeekBackgroundCommandOutput m fs id c' = inr ([], c'))
  /\ (forall fs' more,
        fs' (stdoutPath k) = fs (stdoutPath k) ++ more -> more <> [] ->
        SeekBackgroundCommandOutput m fs' id (blen (fs (stdoutPath k)))
        = inr (more, blen (fs (stdoutPath k)) + blen more)).
Proof.
  intros Hk Hc. unfold SeekBackgroundCommandOutput. rewrite Hk.
  split; [|split].
  - destruct (Z.leb_spec (blen (fs (stdoutPath k))) cursor); [reflexivity | lia].
  - intros c out c'.
    destruct (Z.leb_spec (blen (fs (stdoutPath k))) c); intros [= <- <-].
    + destruct (Z.leb_spec (blen (fs (stdoutPath k))) c); [reflexivity | lia].
    + rewrite Z.leb_refl. reflexivity.
  - intros fs' more -> Hne. rewrite blen_app, drop_blen_app.
    destruct (Z.leb_spec (blen (fs (stdoutPath k)) + blen more) (blen (fs (stdoutPath k)))) as [H|H];
      [|reflexivity].
    destruct more; [congruence|]. rewrite blen_cons in H. pose proof (blen_nonneg more). lia.
Qed.

Lemma seek_at_or_past_end_witness :
  let m := storeCommandKernel ∅ "sess-done" (Some doneKernel) in
  let fs := fun _ : string => str "hello stdout" in
  SeekBackgroundCommandOutput m fs "sess-done" 12 = inr ([], 12)
  /\ (forall c out c',
        SeekBackgroundCommandOutput m fs "sess-done" c = inr (out, c') ->
        SeekBackgroundCommandOutput m fs "sess-done" c' = inr ([], c'))
  /\ (forall fs' more,
        fs' (stdoutPath doneKernel) = fs (stdoutPath doneKernel) ++ more -> more <> [] ->
        SeekBackgroundCommandOutput m fs' "sess-done" (blen (fs (stdoutPath doneKernel)))
        = inr (more, blen (fs (stdoutPath doneKernel)) + blen more)).
Proof.
  apply (seek_at_or_past_end (storeCommandKernel ∅ "sess-done" (Some doneKernel))
           (fun _ => str "hello stdout") "sess-done" doneKernel 12).
  - apply getCommandKernel_store.
  - vm_compute. discriminate.
Defined.

(** The output of a finished background session is read from cursor 0 in
    one piece, as command_status_test.go expects. *)
Example seek_from_zero :
  SeekBackgroundCommandOutput (storeCommandKernel ∅ "sess-done" (Some doneKernel))
    (fun _ => str "hello stdout") "sess-done" 0
  = inr (str "hello stdout", 12).
Proof. unfold SeekBackgroundCommandOutput. rewrite getCommandKernel_store. reflexivity. Qed.

(** ** C6: the kernel invariant *)

Lemma engineRun_snoc (ops : list EngineOp) (op : EngineOp) :
  engineRun (ops ++ [op]) = engineStep (engineRun ops) op.
Proof. unfold engineRun. rewrite foldl_app. reflexivity. Qed.

Lemma freshKernel_ok session processID background now :
  kernelOK (freshKernel session processID background now).
Proof. split; simpl; [auto | discriminate]. Qed.

Lemma finishKernel_ok k now code err : kernelOK (finishKernel k now code err).
Proof. split; simpl; [discriminate | eauto]. Qed.

Lemma engineRun_kernels_ok (ops : list EngineOp) : forall id k,
  getCommandKernel (engineRun ops) id = Some k -> kernelOK k.
Proof.
  induction ops as [|op ops IH] using rev_ind; intros id k.
  - unfold engineRun. simpl. rewrite getCommandKernel_fresh. discriminate.
  - rewrite engineRun_snoc. destruct op as [s p b t | s t c e | s]; cbn [engineStep].
    + destruct (decide (s = id)) as [->|Hne].
      * rewrite getCommandKernel_store. intros [= <-]. apply freshKernel_ok.
      * rewrite getCommandKernel_store_other by assumption. apply IH.
    + destruct (getCommandKernel (engineRun ops) s) as [k0|] eqn:E; [|apply IH].
      destruct (running k0); [|apply IH].
      destruct (decide (s = id)) as [->|Hne].
      * rewrite getCommandKernel_store. intros [= <-]. apply finishKernel_ok.
      * rewrite getCommandKernel_store_other by assumption. apply IH.
    + apply IH.
Qed.

(** C6. In every registry the engine can reach, a running kernel has
    neither [finishedAt] nor [exitCode], a kernel that no longer runs has
    [finishedAt], and the status returned for it carries exactly the
    kernel's [running], [exitCode] and [finishedAt]. *)
Theorem kernel_invariant (ops : list EngineOp) (id : string) (k : commandKernel) :
  getCommandKernel (engineRun ops) id = Some k ->
  (running k = true -> finishedAt k = None /\ exitCode k = None)
  /\ (running k = false -> is_Some (finishedAt k))
  /\ exists st,
       GetCommandStatus (engineRun ops) id = inr st
       /\ Session st = id
       /\ Running st = running k
       /\ ExitCode st = exitCode k
       /\ FinishedAt st = finishedAt k
       /\ StartedAt st = startedAt k.
Proof.
  intros H. destruct (engineRun_kernels_ok ops id k H) as [H1 H2].
  split; [exact H1|]. split; [exact H2|].
  unfold GetCommandStatus. rewrite H. eexists. split; [reflexivity|].
  repeat split.
Qed.

Lemma kernel_invariant_witness :
  let k := finishKernel (freshKernel "s1" 42 true 100) 105 None "" in
  (running k = true -> finishedAt k = None /\ exitCode k = None)
  /\ (running k = false -> is_Some (finishedAt k))
  /\ exists st,
       GetCommandStatus (engineRun [OpRun "s1" 42 true 100; OpInterrupt "s1";
                                    OpFinish "s1" 105 None ""]) "s1" = inr st
       /\ Session st = "s1"%string
       /\ Running st = running k
       /\ ExitCode st = exitCode k
       /\ FinishedAt st = finishedAt k
       /\ StartedAt st = startedAt k.
Proof.
  apply (kernel_invariant [OpRun "s1" 42 true 100; OpInterrupt "s1"; OpFinish "s1" 105 None ""]
           "s1" (finishKernel (freshKernel "s1" 42 true 100) 105 None "")).
  unfold engineRun. cbn [foldl engineStep].
  rewrite getCommandKernel_store. cbn [running freshKernel].
  apply getCommandKernel_store.
Defined.

(** A running session, as command_status_test.go sets one up. *)
Example status_running :
  GetCommandStatus (engineRun [OpRun "sess-running" 123 false 7]) "sess-running"
  = inr (mkStatus "sess-running" true None "" "" 7 None).
Proof. unfold GetCommandStatus, engineRun. simpl. rewrite getCommandKernel_store. reflexivity. Qed.

(** * The cursor of the seek request *)

Lemma parseDigits_not_digits (s : string) : forall n,
  Web.allDigits s = false -> exists e, Web.parseDigits s n = inl e.
Proof.
  induction s as [|c rest IH]; intros n H; simpl in *; [discriminate|].
  destruct (Web.digit c) as [d|]; [|eauto].
  destruct (_ <=? n); [eauto|]. destruct (_ <? _); [eauto|]. apply IH. assumption.
Qed.

Lemma ParseUint_not_digits (s : string) :
  (negb (String.eqb s "") && Web.allDigits s) = false -> exists e, Web.ParseUint s = inl e.
Proof.
  intros H. destruct s as [|c rest]; [simpl; eauto|].
  simpl in H. unfold Web.ParseUint. apply parseDigits_not_digits. exact H.
Qed.

(** Whatever is not an optional sign followed by digits is refused by
    [ParseInt]. *)
Lemma ParseInt_not_numeric (q : string) :
  Web.numeric q = false -> exists e, Web.ParseInt q = inl e.
Proof.
  destruct q as [|c rest]; [simpl; eauto|]. unfold Web.numeric, Web.ParseInt.
  destruct (Ascii.eqb c "+" || Ascii.eqb c "-") eqn:Sign; intros H.
  - replace (Ascii.eqb c "+" || Ascii.eqb c "-")%bool with true.
    destruct (ParseUint_not_digits rest H) as [e ->]. eauto.
  - apply orb_false_iff in Sign as [S1 S2]. rewrite ?S1, ?S2. cbn [orb].
    unfold Web.ParseUint.
    destruct (parseDigits_not_digits (String c rest) 0 H) as [e ->]. eauto.
Qed.

Lemma QueryInt64_default (q : string) (d : Z) (e : Web.NumError) :
  Web.ParseInt q = inl e -> Web.QueryInt64 q d = d.
Proof. intros H. unfold Web.QueryInt64. rewrite H. reflexivity. Qed.

(** C10. A seek request whose [cursor] parameter is missing or is not a
    number makes [ParseInt] fail; and whenever [ParseInt] fails,
    [QueryInt64] falls back to the default 0 and the handler answers as
    it does to [cursor=0].  The request is not rejected for its cursor:
    the runtime is asked to seek from 0, and what it returns is sent as
    the body with status 200 and the new cursor; the only error answer
    left is the one for a seek that the runtime itself refuses. *)
Theorem seek_cursor_defaults_to_zero
        (runtimeSeek : string -> Z -> RuntimeErr + (bytes * Z))
        (errorText : RuntimeErr -> string) (id : string) (params : gmap string string) :
  let q := Web.Query params "cursor" in
  (params !! "cursor"%string = None \/ Web.numeric q = false ->
   exists e, Web.ParseInt q = inl e)
  /\ ((exists e, Web.ParseInt q = inl e) ->
      Web.QueryInt64 q 0 = 0
      /\ Web.GetBackgroundCommandOutput runtimeSeek errorText id params
         = Web.GetBackgroundCommandOutput runtimeSeek errorText id
             (<["cursor"%string := "0"%string]> params)
      /\ (id <> ""%string ->
          Web.GetBackgroundCommandOutput runtimeSeek errorText id params
          = match runtimeSeek id 0 with
            | inl err =>
                Web.RespondError Web.StatusBadRequest Web.ErrorCodeInvalidRequest
                                 (errorText err)
            | inr (output, lastCursor) => Web.TextBody Web.StatusOK lastCursor output
            end)
      /\ (forall output lastCursor,
            id <> ""%string -> runtimeSeek id 0 = inr (output, lastCursor) ->
            Web.GetBackgroundCommandOutput runtimeSeek errorText id params
            = Web.TextBody Web.StatusOK lastCursor output)).
Proof.
  cbv zeta. split.
  - intros [H|H]; [|apply ParseInt_not_numeric; exact H].
    unfold Web.Query. rewrite H. simpl. eauto.
  - intros [e P]. pose proof (QueryInt64_default _ 0 e P) as Q.
    split; [exact Q|].
    assert (Hseek : id <> ""%string ->
              Web.GetBackgroundCommandOutput runtimeSeek errorText id params
              = match runtimeSeek id 0 with
                | inl err =>
                    Web.RespondError Web.StatusBadRequest Web.ErrorCodeInvalidRequest
                                     (errorText err)
                | inr (output, lastCursor) => Web.TextBody Web.StatusOK lastCursor output
                end).
    { intros Hid. unfold Web.GetBackgroundCommandOutput. rewrite Q.
      destruct (String.eqb_spec id ""); [contradiction | reflexivity]. }
    split; [|split; [exact Hseek|]].
    + unfold Web.GetBackgroundCommandOutput. rewrite Q.
      unfold Web.Query. rewrite lookup_insert_eq. reflexivity.
    + intros output lastCursor Hid Hrun. rewrite (Hseek Hid), Hrun. reflexivity.
Qed.

(** A request with [cursor=abc] for a finished session gets the whole
    output, with status 200. *)
Lemma seek_cursor_defaults_to_zero_witness :
  Web.QueryInt64 (Web.Query {["cursor"%string := "abc"%string]} "cursor") 0 = 0
  /\ Web.GetBackgroundCommandOutput
       (SeekBackgroundCommandOutput (storeCommandKernel ∅ "sess-done" (Some doneKernel))
          (fun _ => str "hello stdout"))
       (fun _ => "unknown session"%string) "sess-done" {["cursor"%string := "abc"%string]}
     = Web.GetBackgroundCommandOutput
         (SeekBackgroundCommandOutput (storeCommandKernel ∅ "sess-done" (Some doneKernel))
            (fun _ => str "hello stdout"))
         (fun _ => "unknown session"%string) "sess-done"
         (<["cursor"%string := "0"%string]> {["cursor"%string := "abc"%string]})
  /\ Web.GetBackgroundCommandOutput
       (SeekBackgroundCommandOutput (storeCommandKernel ∅ "sess-done" (Some doneKernel))
          (fun _ => str "hello stdout"))
       (fun _ => "unknown session"%string) "sess-done" {["cursor"%string := "abc"%string]}
     = Web.TextBody Web.StatusOK 12 (str "hello stdout").
Proof.
  destruct (proj2 (seek_cursor_defaults_to_zero
                     (SeekBackgroundCommandOutput
                        (storeCommandKernel ∅ "sess-done" (Some doneKernel))
                        (fun _ => str "hello stdout"))
                     (fun _ => "unknown session"%string) "sess-done"
                     {["cursor"%string := "abc"%string]}))
    as (Q & Same & _ & Served).
  - apply (proj1 (seek_cursor_defaults_to_zero
                    (fun _ _ => inl (InvalidRequest "")) (fun _ => ""%string) ""
                    {["cursor"%string := "abc"%string]})).
    right. unfold Web.Query. rewrite lookup_singleton_eq. reflexivity.
  - split; [exact Q|]. split; [exact Same|].
    apply Served; [discriminate|].
    unfold SeekBackgroundCommandOutput. rewrite getCommandKernel_store. reflexivity.
Defined.

(** A cursor too large for an [int64] is dropped in the same way. *)
Example cursor_out_of_range :
  Web.ParseInt "9223372036854775808" = inl Web.ErrRange
  /\ Web.QueryInt64 "9223372036854775808" 0 = 0
  /\ Web.QueryInt64 "9223372036854775807" 0 = 9223372036854775807.
Proof. repeat split. Qed.

(** The seek handler with no cursor at all returns the whole output. *)
Example seek_without_cursor :
  Web.GetBackgroundCommandOutput
    (SeekBackgroundCommandOutput (storeCommandKernel ∅ "sess-done" (Some doneKernel))
       (fun _ => str "hello stdout"))
    (fun _ => "unknown session"%string) "sess-done" ∅
  = Web.TextBody Web.StatusOK 12 (str "hello stdout").
Proof.
  unfold Web.GetBackgroundCommandOutput, Web.Query. rewrite lookup_empty.
  unfold SeekBackgroundCommandOutput. rewrite getCommandKernel_store. reflexivity.
Qed.

(** * Further properties of the tailer *)

Lemma payload_app (a b : bytes) : payload (a ++ b) = payload a ++ payload b.
Proof.
  induction a as [|x a IH]; simpl; [reflexivity|].
  destruct (isDelim x); rewrite IH; reflexivity.
Qed.

Lemma payload_plain (l : bytes) : plain l -> payload l = l.
Proof.
  induction 1 as [|x l Hx _ IH]; simpl; [reflexivity|]. rewrite Hx, IH. reflexivity.
Qed.

(** What [splitAt] finds: the first delimiter, and whether a LF follows a
    CR inside the slice. *)
Lemma splitAt_shape (data : bytes) : forall i,
  match splitAt data i with
  | Some (adv, n) =>
      exists pre d post,
        data = pre ++ d :: post /\ plain pre /\ isDelim d = true /\ n = i + blen pre /\
        ((adv = n + 1 /\ ~ (d = CR /\ exists p, post = LF :: p))
         \/ (adv = n + 2 /\ d = CR /\ exists p, post = LF :: p))
  | None => plain data
  end.
Proof.
  induction data as [|b tl IH]; intros i; simpl; [constructor|].
  destruct (isDelim b) eqn:Hb.
  - destruct (Byte.eqb b CR && match tl with nxt :: _ => Byte.eqb nxt LF | [] => false end)
      eqn:C.
    + apply andb_true_iff in C as [C1 C2]. apply Byte.byte_dec_bl in C1. subst b.
      destruct tl as [|nxt p]; [discriminate|]. apply Byte.byte_dec_bl in C2. subst nxt.
      exists [], CR, (LF :: p). change (blen []) with 0.
      split; [reflexivity|]. split; [constructor|]. split; [assumption|].
      split; [lia|]. right. split; [lia|]. split; [reflexivity | eauto].
    + exists [], b, tl. change (blen []) with 0.
      split; [reflexivity|]. split; [constructor|]. split; [assumption|].
      split; [lia|]. left. split; [lia|].
      intros [-> [p ->]]. discriminate C.
  - specialize (IH (i + 1)). destruct (splitAt tl (i + 1)) as [[adv n]|].
    + destruct IH as (pre & d & post & -> & Hpre & Hd & -> & Hadv).
      exists (b :: pre), d, post. rewrite blen_cons.
      split; [reflexivity|]. split; [constructor; assumption|]. split; [assumption|].
      split; [lia|].
      destruct Hadv as [[-> H]|[-> H]]; [left | right]; (split; [lia | exact H]).
    + constructor; assumption.
Qed.

(** Every way in which the closure answers. *)
Lemma splitFunc_shape (data : bytes) (e : bool) :
  match splitFunc data e with
  | (adv, Some t) => cutAt data e adv t
  | (adv, None) => adv = 0 /\ plain data /\ (e = true -> data = [])
  end.
Proof.
  unfold splitFunc. pose proof (splitAt_shape data 0) as H.
  destruct (splitAt data 0) as [[adv n]|].
  - destruct H as (pre & d & post & -> & Hpre & Hd & -> & Hadv).
    rewrite Z.add_0_l, take_blen_app. left. exists d, post.
    split; [reflexivity|]. split; [assumption|]. split; [assumption|].
    destruct Hadv as [[-> X]|[-> X]]; [left | right]; (split; [lia | exact X]).
  - destruct e; cbn [andb].
    + destruct (Z.ltb_spec 0 (blen data)) as [Hlen|Hlen].
      * right. split; [reflexivity|]. split; [reflexivity|]. split; [assumption|].
        split; [|reflexivity]. intros ->. change (blen []) with 0 in Hlen. lia.
      * split; [reflexivity|]. split; [assumption|]. intros _. destruct data; [reflexivity|].
        rewrite blen_cons in Hlen. pose proof (blen_nonneg data). lia.
    + split; [reflexivity|]. split; [assumption | discriminate].
Qed.

Lemma cutAt_facts (data : bytes) (e : bool) (adv : Z) (t : bytes) :
  cutAt data e adv t ->
  1 <= adv <= blen data /\ plain t /\ payload (take (Z.to_nat adv) data) = t.
Proof.
  intros [(d & post & -> & Ht & Hd & Hadv) | (_ & -> & Ht & Hne & ->)].
  - pose proof (blen_nonneg t). pose proof (blen_nonneg post).
    destruct Hadv as [[-> _] | (-> & -> & p & ->)].
    + split; [rewrite blen_app, blen_cons; lia|]. split; [assumption|].
      replace (t ++ d :: post) with ((t ++ [d]) ++ post) by (rewrite <- app_assoc; reflexivity).
      replace (blen t + 1) with (blen (t ++ [d])) by (rewrite blen_app; reflexivity).
      rewrite take_blen_app, payload_app, payload_plain by assumption.
      simpl. rewrite Hd. apply app_nil_r.
    + pose proof (blen_nonneg p).
      split; [rewrite blen_app, !blen_cons; lia|]. split; [assumption|].
      replace (t ++ CR :: LF :: p) with ((t ++ [CR; LF]) ++ p)
        by (rewrite <- app_assoc; reflexivity).
      replace (blen t + 2) with (blen (t ++ [CR; LF])) by (rewrite blen_app; reflexivity).
      rewrite take_blen_app, payload_app, payload_plain by assumption. apply app_nil_r.
  - split.
    + destruct t; [congruence|]. rewrite blen_cons. pose proof (blen_nonneg t). lia.
    + split; [assumption|]. unfold blen. rewrite Nat2Z.id, firstn_all.
      apply payload_plain. assumption.
Qed.

(** A rule for reasoning about a whole scan: what holds of a scan is
    what is kept by each kind of turn. *)
Lemma scanLoop_rule (maxTok : Z) (P : Scanner -> list bytes -> Outcome -> Prop) :
  (forall s adv t ts o,
      Inv s -> cutAt (window s) (sawEOF s) adv t ->
      P (mkScanner (src s) (bufLen s) (start s + adv)
                   (drop (Z.to_nat adv) (window s)) (sawEOF s)) ts o ->
      P s (t :: ts) o) ->
  (forall s s2 ts o,
      Inv s -> sawEOF s = false -> plain (window s) -> Inv s2 ->
      (scanMeasure s2 < scanMeasure s)%nat ->
      window s2 ++ src s2 = window s ++ src s ->
      P s2 ts o -> P s ts o) ->
  (forall s, Inv s -> sawEOF s = true -> window s = [] -> src s = [] ->
             P s [] (Finished s)) ->
  (forall s, Inv s -> sawEOF s = false -> plain (window s) ->
             maxTok <= blen (window s) -> P s [] (Failed ErrTooLong)) ->
  forall fuel s, Inv s -> (scanMeasure s < fuel)%nat ->
  P s (scanLoop splitFunc maxTok fuel s).1 (scanLoop splitFunc maxTok fuel s).2.
Proof.
  intros Hemit Hread Hhalt Hfail.
  induction fuel as [|fuel IH]; intros s HI Hm; [lia|].
  cbn [scanLoop].
  pose proof (splitFunc_shape (window s) (sawEOF s)) as Sh.
  destruct (splitFunc (window s) (sawEOF s)) as [adv [t|]] eqn:Es.
  - (* a token *)
    destruct (cutAt_facts _ _ _ _ Sh) as (Hadv & _ & _).
    rewrite (scanStep_token splitFunc maxTok s adv t Es Hadv).
    set (s1 := mkScanner (src s) (bufLen s) (start s + adv)
                         (drop (Z.to_nat adv) (window s)) (sawEOF s)).
    destruct (advance_inv s s1 adv HI (advance_within s adv ltac:(lia)))
      as (I1 & M1 & _).
    specialize (IH s1 I1 ltac:(lia)).
    destruct (scanLoop splitFunc maxTok fuel s1) as [ts o]. cbn [fst snd] in *.
    apply (Hemit s adv t ts o HI Sh IH).
  - (* no token: fill *)
    destruct Sh as (-> & Hpl & Hend).
    rewrite scanStep_no_token by (intros _; exact Es).
    destruct (sawEOF s) eqn:Heof.
    + unfold fill. rewrite Heof. cbn [fst snd].
      apply Hhalt; auto. apply HI. assumption.
    + destruct (fill_spec maxTok s HI Heof) as [[-> F] | (s2 & -> & I2 & M & W & _)].
      * cbn [fst snd]. apply Hfail; assumption.
      * apply (Hread s s2 _ _ HI Heof Hpl I2 M W). apply IH; [assumption | lia].
Qed.

Lemma take_drop_window (s : Scanner) (adv : Z) :
  window s ++ src s
  = take (Z.to_nat adv) (window s) ++ (drop (Z.to_nat adv) (window s) ++ src s).
Proof. rewrite app_assoc, take_drop. reflexivity. Qed.

(** ** What the handler receives *)

Lemma scanLoop_plain (maxTok : Z) (fuel : nat) (s : Scanner) :
  Inv s -> (scanMeasure s < fuel)%nat ->
  Forall plain (scanLoop splitFunc maxTok fuel s).1.
Proof.
  apply (scanLoop_rule maxTok (fun _ ts _ => Forall plain ts)).
  - intros s0 adv t ts o _ Hcut IH. constructor; [|exact IH].
    apply (cutAt_facts _ _ _ _ Hcut).
  - intros s0 s2 ts o _ _ _ _ _ _ IH. exact IH.
  - constructor.
  - constructor.
Qed.

(** X1. No record handed to the handler holds a line feed or a carriage
    return, whatever the file holds and wherever the read starts. *)
Theorem records_hold_no_delimiter (file : FileState) (startPos : Z) :
  Forall plain (delivered (readFromPos file startPos)).
Proof.
  destruct file as [content|]; [|constructor]. unfold readFromPos, scanAll.
  set (s0 := newScanner _ initialBufCap).
  pose proof (scanLoop_plain maxRecordSize (S (scanMeasure s0)) s0
                (newScanner_inv _ initialBufCap eq_refl) ltac:(lia)) as H.
  destruct (scanLoop splitFunc maxRecordSize (S (scanMeasure s0)) s0) as [ts [s'|e|]];
    exact H.
Qed.

(** The records spell out, delimiters dropped, a prefix of what the scan
    was given, and all of it when the scan ends cleanly. *)
Lemma scanLoop_payload (maxTok : Z) (fuel : nat) (s : Scanner) :
  Inv s -> (scanMeasure s < fuel)%nat ->
  exists consumed rest,
    window s ++ src s = consumed ++ rest
    /\ concat (scanLoop splitFunc maxTok fuel s).1 = payload consumed
    /\ (forall s', (scanLoop splitFunc maxTok fuel s).2 = Finished s' -> rest = []).
Proof.
  apply (scanLoop_rule maxTok (fun s ts o =>
           exists consumed rest,
             window s ++ src s = consumed ++ rest
             /\ concat ts = payload consumed
             /\ (forall s', o = Finished s' -> rest = []))).
  - intros s0 adv t ts o _ Hcut (consumed & rest & E & C & F). cbn [window src] in E.
    exists (take (Z.to_nat adv) (window s0) ++ consumed), rest.
    split; [rewrite (take_drop_window s0 adv), E, app_assoc; reflexivity|].
    split; [|exact F].
    destruct (cutAt_facts _ _ _ _ Hcut) as (_ & _ & Hp).
    simpl. rewrite payload_app, Hp, C. reflexivity.
  - intros s0 s2 ts o _ _ _ _ _ W (consumed & rest & E & C & F).
    exists consumed, rest. rewrite <- W. auto.
  - intros s0 _ _ Hw Hs. exists [], []. rewrite Hw, Hs. auto.
  - intros s0 _ _ _ _. exists [], (window s0 ++ src s0).
    split; [reflexivity|]. split; [reflexivity|]. intros s' [=].
Qed.

Lemma readFromPos_payload (content : bytes) (startPos : Z) :
  let r := readFromPos (Some content) startPos in
  exists consumed rest,
    drop (Z.to_nat (Z.max 0 startPos)) content = consumed ++ rest
    /\ concat (delivered r) = payload consumed
    /\ (exit r = ReadOK -> rest = []).
Proof.
  unfold readFromPos, scanAll. cbv zeta.
  replace (if startPos <? 0 then 0 else startPos) with (Z.max 0 startPos)
    by (destruct (Z.ltb_spec startPos 0); lia).
  set (unread := drop _ content). set (s0 := newScanner unread initialBufCap).
  destruct (scanLoop_payload maxRecordSize (S (scanMeasure s0)) s0
              (newScanner_inv _ initialBufCap eq_refl) ltac:(lia))
    as (consumed & rest & E & C & F).
  exists consumed, rest. split; [exact E|].
  destruct (scanLoop splitFunc maxRecordSize (S (scanMeasure s0)) s0) as [ts [s'|e|]];
    cbn [fst snd delivered exit] in *; (split; [exact C|]); try discriminate.
  intros _. exact (F s' eq_refl).
Qed.

(** X2. The records of one read, put end to end, are the unread bytes
    with the delimiters left out: always a prefix of them, and all of
    them when the read succeeds.  No byte is invented, reordered or, in a
    successful read, lost. *)
Theorem read_delivers_the_payload (content : bytes) (startPos : Z) :
  let r := readFromPos (Some content) startPos in
  exists consumed rest,
    drop (Z.to_nat (Z.max 0 startPos)) content = consumed ++ rest
    /\ concat (delivered r) = payload consumed
    /\ (exit r = ReadOK -> rest = []).
Proof. exact (readFromPos_payload content startPos). Qed.

(** ** When a scan fails *)

Lemma scanLoop_failure (maxTok : Z) (fuel : nat) (s : Scanner) :
  Inv s -> (scanMeasure s < fuel)%nat ->
  forall e, (scanLoop splitFunc maxTok fuel s).2 = Failed e ->
  e = ErrTooLong
  /\ exists a big b, window s ++ src s = a ++ big ++ b /\ plain big /\ maxTok <= blen big.
Proof.
  apply (scanLoop_rule maxTok (fun s ts o =>
           forall e, o = Failed e ->
           e = ErrTooLong
           /\ exists a big b, window s ++ src s = a ++ big ++ b /\ plain big
                              /\ maxTok <= blen big)).
  - intros s0 adv t ts o _ _ IH e He.
    destruct (IH e He) as (-> & a & big & b & E & Hpl & Hlen). cbn [window src] in E.
    split; [reflexivity|].
    exists (take (Z.to_nat adv) (window s0) ++ a), big, b.
    split; [rewrite (take_drop_window s0 adv), E, app_assoc; reflexivity | auto].
  - intros s0 s2 ts o _ _ _ _ _ W IH e He.
    destruct (IH e He) as (-> & a & big & b & E & Hpl & Hlen).
    split; [reflexivity|]. exists a, big, b. rewrite <- W. auto.
  - intros s0 _ _ _ _ e [=].
  - intros s0 _ _ Hpl Hlen e [= <-]. split; [reflexivity|].
    exists [], (window s0), (src s0). auto.
Qed.

(** X3. A read of an open file fails only with [ErrTooLong], and only
    when the unread bytes hold a delimiter-free run of 5MB or more: where
    every such run is shorter, whatever the delimiters, the read
    succeeds. *)
Theorem read_fails_only_on_a_long_run (content : bytes) (startPos : Z) :
  (forall a big b,
      drop (Z.to_nat (Z.max 0 startPos)) content = a ++ big ++ b ->
      plain big -> blen big < maxRecordSize) ->
  exit (readFromPos (Some content) startPos) = ReadOK.
Proof.
  intros Hshort.
  pose proof (readFromPos_exit content startPos) as X. cbv zeta in X.
  destruct (exit (readFromPos (Some content) startPos)) as [|e| |] eqn:Ex;
    try contradiction; [|reflexivity].
  exfalso. revert Ex. unfold readFromPos, scanAll.
  replace (if startPos <? 0 then 0 else startPos) with (Z.max 0 startPos)
    by (destruct (Z.ltb_spec startPos 0); lia).
  set (unread := drop _ content) in *. set (s0 := newScanner unread initialBufCap).
  pose proof (scanLoop_failure maxRecordSize (S (scanMeasure s0)) s0
                (newScanner_inv _ initialBufCap eq_refl) ltac:(lia)) as F.
  destruct (scanLoop splitFunc maxRecordSize (S (scanMeasure s0)) s0) as [ts [s'|e'|]];
    cbn [exit snd] in *; try discriminate.
  intros _. destruct (F e' eq_refl) as (_ & a & big & b & E & Hpl & Hlen).
  specialize (Hshort a big b E Hpl). lia.
Qed.

Lemma read_fails_only_on_a_long_run_witness :
  exit (readFromPos (Some (str "10%" ++ [CR] ++ str "ok" ++ [CR; LF; LF])) 0) = ReadOK.
Proof.
  apply read_fails_only_on_a_long_run. intros a big b E _.
  apply (f_equal blen) in E. rewrite !blen_app in E.
  pose proof (blen_nonneg a). pose proof (blen_nonneg b).
  match type of E with ?l = _ => let v := eval vm_compute in l in change l with v in E end.
  unfold maxRecordSize. lia.
Defined.

(** ** Offsets *)

Lemma readFromPos_advances (f : FileState) (pos : Z) : pos <= newPos (readFromPos f pos).
Proof.
  destruct f as [content|]; [|reflexivity].
  pose proof (readFromPos_exit content pos) as X. cbv zeta in X.
  destruct (exit (readFromPos (Some content) pos)); try contradiction; lia.
Qed.

(** X4. The offset never moves back: no read returns less than it was
    given, and each read of the loop starts where the read before it
    ended, so the offsets of a run only grow. *)
Theorem tail_offsets_only_grow (evs : list Event) (pos : Z) :
  chained pos (tailLoop evs pos).1.
Proof.
  revert pos. induction evs as [|[f|f] evs IH]; intros pos; cbn [tailLoop].
  - exact I.
  - specialize (IH (newPos (readFromPos f pos))).
    destruct (tailLoop evs (newPos (readFromPos f pos))) as [calls ret].
    cbn [fst chained atPos result] in *.
    split; [reflexivity|]. split; [apply readFromPos_advances | exact IH].
  - cbn [fst chained atPos result].
    split; [reflexivity|]. split; [apply readFromPos_advances | exact I].
Qed.

(** X7. A read from the end of the file, or from beyond it, hands
    nothing to the handler and returns the offset it was given. *)
Theorem read_at_end_is_idle (content : bytes) (startPos : Z) :
  blen content <= startPos ->
  readFromPos (Some content) startPos = mkRead startPos [] ReadOK.
Proof.
  intros H. pose proof (blen_nonneg content). unfold readFromPos.
  destruct (Z.ltb_spec startPos 0); [lia|].
  rewrite drop_ge by (unfold blen in H; lia).
  change (scanAll splitFunc maxRecordSize (newScanner [] initialBufCap))
    with (@nil bytes, Finished (mkScanner [] initialBufCap 0 [] true)).
  cbn [src]. change (blen []) with 0. f_equal. lia.
Qed.

Lemma read_at_end_is_idle_witness :
  readFromPos (Some (str "done" ++ [LF])) 5 = mkRead 5 [] ReadOK.
Proof. apply read_at_end_is_idle. vm_compute. discriminate. Defined.

(** ** The whole run *)

Lemma tailLoop_payload (final : bytes) (drainOpens : bool) (chunks : list (option bytes)) :
  forall written,
  Forall (fun c => forall e, exit (result c) <> ScanFailed e)
         (tailLoop (growSchedule written chunks final drainOpens) (blen written)).1 ->
  concat (recordsOf (tailLoop (growSchedule written chunks final drainOpens)
                              (blen written)).1)
  = payload (grown chunks (if drainOpens then final else [])).
Proof.
  assert (Hread : forall written c : bytes,
             (forall e, exit (readFromPos (Some (written ++ c)) (blen written)) <> ScanFailed e) ->
             newPos (readFromPos (Some (written ++ c)) (blen written)) = blen (written ++ c)
             /\ concat (delivered (readFromPos (Some (written ++ c)) (blen written)))
                = payload c).
  { intros written c Hok. pose proof (blen_nonneg written).
    pose proof (readFromPos_exit (written ++ c) (blen written)) as X.
    destruct (readFromPos_payload (written ++ c) (blen written))
      as (consumed & rest & E & C & F).
    cbv zeta in X, C, F.
    rewrite Z.max_r, drop_blen_app in E by lia.
    set (r := readFromPos (Some (written ++ c)) (blen written)) in *.
    change (readFromPos (Some (written ++ c)) (blen written)) with r in X, C, F.
    destruct (exit r) eqn:Ex; try contradiction; [exfalso; eapply Hok; reflexivity|].
    rewrite (F eq_refl), app_nil_r in E. subst consumed.
    split; [|exact C]. rewrite X, blen_app. pose proof (blen_nonneg c). lia. }
  unfold grown.
  induction chunks as [|[c|] cs IH]; intros written Hall;
    cbn [growSchedule tailLoop] in *.
  - destruct drainOpens.
    + cbn [fst] in *. apply Forall_cons in Hall as [Hc _]. cbn [result] in Hc.
      destruct (Hread written final Hc) as [_ C].
      unfold recordsOf. simpl. rewrite !app_nil_r. exact C.
    + reflexivity.
  - destruct (Hread written c) as [Hpos C].
    { intros e. destruct (tailLoop _ _) in Hall. cbn [fst] in Hall.
      apply Forall_cons in Hall as [Hc _]. exact (Hc e). }
    rewrite Hpos in *. specialize (IH (written ++ c)).
    destruct (tailLoop (growSchedule (written ++ c) cs final drainOpens)
                       (blen (written ++ c))) as [calls ret].
    cbn [fst] in *. apply Forall_cons in Hall as [_ Hall].
    unfold recordsOf in *. cbn [map concat result delivered default].
    rewrite concat_app, C, (IH Hall). unfold id.
    rewrite <- payload_app, app_assoc. reflexivity.
  - rewrite readFromPos_closed in *. cbn [newPos] in *. specialize (IH written).
    destruct (tailLoop (growSchedule written cs final drainOpens) (blen written))
      as [calls ret].
    cbn [fst] in *. apply Forall_cons in Hall as [_ Hall].
    unfold recordsOf in *. cbn [map concat result delivered default]. simpl.
    exact (IH Hall).
Qed.

(** X5. Over a whole run on a file that only grows, if no read hits the
    5MB cap: when the final drain can open the file, the records handed
    over by the polls and the drain, put end to end, are the file's
    bytes with the delimiters left out, so that, however the polls fall,
    no byte is lost and none comes twice; when the drain cannot open the
    file, they are the bytes of the chunks only, and the bytes appended
    since the last tick are not delivered.  A tick at which the file
    cannot be opened loses nothing. *)
Theorem tail_delivers_the_payload (chunks : list (option bytes)) (final : bytes)
        (drainOpens : bool) :
  Forall (fun c => forall e, exit (result c) <> ScanFailed e)
         (tailStdPipe (growSchedule [] chunks final drainOpens)).1 ->
  concat (recordsOf (tailStdPipe (growSchedule [] chunks final drainOpens)).1)
  = if drainOpens then payload (grown chunks final) else payload (grown chunks []).
Proof.
  intros H.
  etransitivity; [exact (tailLoop_payload final drainOpens chunks [] H)|].
  destruct drainOpens; reflexivity.
Qed.

Lemma tail_delivers_the_payload_witness :
  concat (recordsOf (tailStdPipe (growSchedule [] [Some (str "he"); None;
                                                    Some (str "llo" ++ [CR; LF] ++ str "wor")]
                                               (str "ld" ++ [LF]) true)).1)
  = if true
    then payload (grown [Some (str "he"); None; Some (str "llo" ++ [CR; LF] ++ str "wor")]
                        (str "ld" ++ [LF]))
    else payload (grown [Some (str "he"); None; Some (str "llo" ++ [CR; LF] ++ str "wor")]
                        []).
Proof.
  apply tail_delivers_the_payload. vm_compute.
  repeat constructor; intros e; discriminate.
Defined.

(** A drain that cannot open the file: what the command wrote after the
    last tick never reaches the handler. *)
Example drain_that_cannot_open_loses_the_rest :
  recordsOf (tailStdPipe (growSchedule [] [Some (str "ab" ++ [LF])]
                                       (str "cd" ++ [LF]) false)).1
  = [str "ab"].
Proof. reflexivity. Qed.

(** ** Where the records are cut *)

Lemma cut_plain (l : bytes) : forall rest cur,
  plain l -> cut (l ++ rest) cur = cut rest (cur ++ l).
Proof.
  induction l as [|x l IH]; intros rest cur Hl; simpl.
  - rewrite app_nil_r. reflexivity.
  - apply Forall_cons in Hl as [Hx Hl]. rewrite Hx, (IH _ _ Hl), <- app_assoc.
    reflexivity.
Qed.

Lemma cut_head (data : bytes) : forall cur,
  cur <> [] -> exists r rs, cut data cur = r :: rs /\ blen cur <= blen r.
Proof.
  induction data as [|b tl IH]; intros cur Hne; simpl.
  - destruct cur; [congruence|]. eexists _, _. split; [reflexivity | lia].
  - destruct (isDelim b).
    + eexists _, _. split; [reflexivity | lia].
    + destruct (IH (cur ++ [b])) as (r & rs & E & Hlen).
      { destruct cur; discriminate. }
      exists r, rs. split; [exact E|]. rewrite blen_app in Hlen.
      change (blen [b]) with 1 in Hlen. lia.
Qed.

Lemma noCRLF_app (a b : bytes) : noCRLF (a ++ b) = true -> noCRLF b = true.
Proof.
  induction a as [|x a IH]; [trivial|]. simpl.
  intros H. apply andb_true_iff in H as [_ H]. exact (IH H).
Qed.

Lemma noCRLF_pair (a b : bytes) : noCRLF (a ++ CR :: LF :: b) = false.
Proof.
  induction a as [|x a IH]; [reflexivity|].
  change ((x :: a) ++ CR :: LF :: b) with (x :: (a ++ CR :: LF :: b)).
  cbn [noCRLF]. rewrite IH. apply andb_false_r.
Qed.

Lemma scanLoop_cut (maxTok : Z) (fuel : nat) (s : Scanner) :
  0 < maxTok -> Inv s -> (scanMeasure s < fuel)%nat ->
  noCRLF (window s ++ src s) = true ->
  Forall (fun r => blen r < maxTok) (cut (window s ++ src s) []) ->
  (scanLoop splitFunc maxTok fuel s).1 = cut (window s ++ src s) []
  /\ exists s', (scanLoop splitFunc maxTok fuel s).2 = Finished s' /\ src s' = [].
Proof.
  intros Hmax.
  apply (scanLoop_rule maxTok (fun s ts o =>
           noCRLF (window s ++ src s) = true ->
           Forall (fun r => blen r < maxTok) (cut (window s ++ src s) []) ->
           ts = cut (window s ++ src s) []
           /\ exists s', o = Finished s' /\ src s' = [])).
  - intros s0 adv t ts o HI Hcut IH Hno Hall. cbn [window src] in IH.
    destruct Hcut as [(d & post & Ew & Ht & Hd & Hadv) | (Heof & Ew & Ht & Hne & ->)].
    + rewrite Ew, <- app_assoc in Hno, Hall |- *.
      destruct Hadv as [[-> _] | (_ & -> & p & ->)];
        [|rewrite <- !app_comm_cons, noCRLF_pair in Hno; discriminate].
      rewrite cut_plain in Hall |- * by assumption.
      rewrite <- app_comm_cons in Hall |- *. cbn [cut app] in Hall |- *.
      rewrite Hd in Hall |- *. apply Forall_cons in Hall as [_ Hall].
      rewrite Ew in IH.
      replace (blen t + 1) with (blen (t ++ [d])) in IH by (rewrite blen_app; reflexivity).
      replace (t ++ d :: post) with ((t ++ [d]) ++ post) in IH
        by (rewrite <- app_assoc; reflexivity).
      rewrite drop_blen_app in IH.
      destruct IH as [-> Hfin]; [|assumption|auto].
      apply (noCRLF_app (t ++ [d])). rewrite <- app_assoc. exact Hno.
    + rewrite (inv_eof _ HI Heof), app_nil_r in *. rewrite Ew in *.
      unfold blen in IH. rewrite Nat2Z.id, drop_all in IH.
      destruct IH as [-> Hfin]; [reflexivity | constructor |].
      split; [|exact Hfin].
      rewrite <- (app_nil_r t) at 2. rewrite cut_plain by assumption.
      cbn [cut app]. destruct t; [congruence | reflexivity].
  - intros s0 s2 ts o _ _ _ _ _ W IH. rewrite <- W. exact IH.
  - intros s0 _ _ Hw Hs _ _. rewrite Hw, Hs. split; [reflexivity | eauto].
  - intros s0 _ _ Hpl Hlen _ Hall. exfalso.
    rewrite cut_plain in Hall by assumption. cbn [app] in Hall.
    destruct (cut_head (src s0) (window s0)) as (r & rs & E & Hr).
    { intros E. rewrite E in Hlen. change (blen []) with 0 in Hlen. lia. }
    rewrite E in Hall. apply Forall_cons in Hall as [Hlt _]. lia.
Qed.

(** X6. Where no CR is directly followed by a LF, a read cuts the unread
    bytes at every LF and every CR, whatever the size of the file and
    however the 64KB buffer falls on it: each delimiter ends one record,
    an empty run between two delimiters gives an empty record, and a
    non-empty run after the last delimiter is the last record. The read
    ends at the end of the file. *)
Theorem read_cuts_at_every_delimiter (pre data : bytes) :
  noCRLF data = true ->
  Forall (fun r => blen r < maxRecordSize) (cut data []) ->
  readFromPos (Some (pre ++ data)) (blen pre)
  = mkRead (blen (pre ++ data)) (cut data []) ReadOK.
Proof.
  intros Hno Hall. unfold readFromPos.
  pose proof (blen_nonneg pre).
  destruct (Z.ltb_spec (blen pre) 0); [lia|].
  rewrite drop_blen_app. unfold scanAll.
  set (s0 := newScanner data initialBufCap).
  destruct (scanLoop_cut maxRecordSize (S (scanMeasure s0)) s0)
    as (Ets & s' & Eo & Hs'); try assumption; try reflexivity.
  - apply newScanner_inv. reflexivity.
  - lia.
  - destruct (scanLoop splitFunc maxRecordSize (S (scanMeasure s0)) s0) as [ts o].
    cbn [fst snd] in *. subst ts o. rewrite Hs'. f_equal.
    rewrite blen_app. change (blen []) with 0. lia.
Qed.

Lemma read_cuts_at_every_delimiter_witness :
  readFromPos (Some ((str "ok" ++ [LF])
                     ++ str "10%" ++ [CR] ++ str "20%" ++ [CR; CR]
                     ++ str "done" ++ [LF; LF] ++ str "end"))
              (blen (str "ok" ++ [LF]))
  = mkRead 21 [str "10%"; str "20%"; []; str "done"; []; str "end"] ReadOK.
Proof.
  etransitivity; [apply read_cuts_at_every_delimiter|reflexivity].
  - reflexivity.
  - match goal with
    | |- Forall _ ?l => let v := eval vm_compute in l in change l with v
    end.
    repeat (constructor; [reflexivity|]). constructor.
Defined.

(** ** A read that fits the buffer *)

Lemma cutCRLF_plain (l : bytes) : forall rest cur,
  plain l -> cutCRLF (l ++ rest) cur false = cutCRLF rest (cur ++ l) false.
Proof.
  induction l as [|x l IH]; intros rest cur Hl.
  - rewrite app_nil_r. reflexivity.
  - apply Forall_cons in Hl as [Hx Hl]. unfold isDelim in Hx.
    apply orb_false_iff in Hx as [X1 X2].
    cbn [app cutCRLF]. rewrite X1, X2, (IH _ _ Hl), <- app_assoc. reflexivity.
Qed.

(** After a CR that is not followed by a LF. *)
Lemma cutCRLF_lone_CR (post : bytes) :
  ~ (exists p, post = LF :: p) -> cutCRLF post [] true = cutCRLF post [] false.
Proof.
  destruct post as [|b p]; [reflexivity|]. intros H. cbn [cutCRLF].
  destruct (Byte.eqb b LF) eqn:E; [|reflexivity].
  apply Byte.byte_dec_bl in E. subst b. exfalso. apply H. eauto.
Qed.

Lemma scanLoop_in_window (maxTok : Z) (fuel : nat) (s : Scanner) :
  Inv s -> (scanMeasure s < fuel)%nat ->
  src s = [] -> blen (window s) < maxTok ->
  (scanLoop splitFunc maxTok fuel s).1 = cutCRLF (window s) [] false
  /\ exists s', (scanLoop splitFunc maxTok fuel s).2 = Finished s' /\ src s' = [].
Proof.
  apply (scanLoop_rule maxTok (fun s ts o =>
           src s = [] -> blen (window s) < maxTok ->
           ts = cutCRLF (window s) [] false
           /\ exists s', o = Finished s' /\ src s' = [])).
  - intros s0 adv t ts o HI Hcut IH Hsrc Hlen. cbn [window src] in IH.
    destruct Hcut as [(d & post & Ew & Ht & Hd & Hadv) | (Heof & Ew & Ht & Hne & ->)].
    + rewrite Ew in *. rewrite cutCRLF_plain by assumption. cbn [app cutCRLF].
      rewrite blen_app, blen_cons in Hlen.
      pose proof (blen_nonneg t). pose proof (blen_nonneg post).
      destruct Hadv as [[-> Hlone] | (-> & -> & p & ->)].
      * replace (blen t + 1) with (blen (t ++ [d])) in IH by (rewrite blen_app; reflexivity).
        replace (t ++ d :: post) with ((t ++ [d]) ++ post) in IH
          by (rewrite <- app_assoc; reflexivity).
        rewrite drop_blen_app in IH.
        destruct (IH Hsrc ltac:(lia)) as [-> Hfin]. split; [|exact Hfin].
        unfold isDelim in Hd. destruct (Byte.eqb d LF) eqn:E1; [reflexivity|].
        cbn [orb] in Hd. rewrite Hd. f_equal. symmetry. apply cutCRLF_lone_CR.
        intros Hp. apply Hlone. split; [|exact Hp]. apply Byte.byte_dec_bl. exact Hd.
      * replace (blen t + 2) with (blen (t ++ [CR; LF])) in IH
          by (rewrite blen_app; reflexivity).
        replace (t ++ CR :: LF :: p) with ((t ++ [CR; LF]) ++ p) in IH
          by (rewrite <- app_assoc; reflexivity).
        rewrite drop_blen_app in IH. rewrite blen_cons in Hlen.
        pose proof (blen_nonneg p).
        destruct (IH Hsrc ltac:(lia)) as [-> Hfin]. split; [|exact Hfin]. reflexivity.
    + rewrite Ew in *. unfold blen in IH. rewrite Nat2Z.id, drop_all in IH.
      destruct (IH Hsrc) as [-> Hfin].
      { pose proof (blen_nonneg t). change (Z.of_nat (length (@nil byte))) with 0. lia. }
      split; [|exact Hfin].
      rewrite <- (app_nil_r t) at 2. rewrite cutCRLF_plain by assumption.
      cbn [cutCRLF app]. destruct t; [congruence | reflexivity].
  - intros s0 s2 ts o _ Heof _ _ M W IH Hsrc Hlen.
    assert (Hs2 : src s2 = []).
    { apply (f_equal (@length byte)) in W. rewrite Hsrc, !length_app in W.
      unfold scanMeasure in M. rewrite Hsrc, Heof in M. simpl length in *.
      destruct (src s2); [reflexivity|]. simpl length in *.
      destruct (sawEOF s2); lia. }
    rewrite Hs2, Hsrc, !app_nil_r in W. rewrite <- W. apply IH; [exact Hs2|].
    rewrite W. exact Hlen.
  - intros s0 _ _ Hw Hs _ _. rewrite Hw. split; [reflexivity | eauto].
  - intros s0 _ _ _ Hlen _ Hlt. lia.
Qed.

(** X16. A read whose unread bytes fit the 64KB buffer cuts them at
    every LF, every CR LF pair and every other CR: a CR LF pair ends one
    record, and so does a CR that the file ends with.  The read ends at
    the end of the file. *)
Theorem read_within_buffer_cuts_lines (pre data : bytes) :
  blen data <= initialBufCap ->
  readFromPos (Some (pre ++ data)) (blen pre)
  = mkRead (blen (pre ++ data)) (cutCRLF data [] false) ReadOK.
Proof.
  intros Hfit. unfold readFromPos. pose proof (blen_nonneg pre).
  destruct (Z.ltb_spec (blen pre) 0); [lia|].
  rewrite drop_blen_app. unfold scanAll.
  assert (Hfin : forall fuel s,
             Inv s -> (scanMeasure s < fuel)%nat -> src s = [] -> window s = data ->
             exists s', scanLoop splitFunc maxRecordSize fuel s
                        = (cutCRLF data [] false, Finished s') /\ src s' = []).
  { intros fuel s HI Hm Hsrc Hw.
    destruct (scanLoop_in_window maxRecordSize fuel s HI Hm Hsrc)
      as (Ets & s' & Eo & Hs').
    - rewrite Hw. unfold initialBufCap, maxRecordSize in *. lia.
    - exists s'. split; [|exact Hs'].
      destruct (scanLoop splitFunc maxRecordSize fuel s) as [ts o]. cbn [fst snd] in *.
      rewrite Ets, Eo, Hw. reflexivity. }
  destruct (decide (data = [])) as [->|Hne].
  - destruct (Hfin (S (scanMeasure (newScanner [] initialBufCap)))
                   (newScanner [] initialBufCap)) as (s' & -> & Hs');
      [apply newScanner_inv; reflexivity | lia | reflexivity | reflexivity |].
    rewrite Hs'. f_equal. rewrite !blen_app. change (blen []) with 0. lia.
  - cbn [scanLoop]. rewrite scanStep_first_read by assumption.
    destruct (Hfin (scanMeasure (newScanner data initialBufCap))
                   (mkScanner [] initialBufCap 0 data false)) as (s' & -> & Hs').
    + split; unfold bufEnd; cbn [start window bufLen sawEOF src];
        try lia; try reflexivity; discriminate.
    + unfold scanMeasure, newScanner. cbn [src window sawEOF]. simpl length.
      assert (0 < length data)%nat by (destruct data; [congruence | simpl; lia]). lia.
    + reflexivity.
    + reflexivity.
    + rewrite Hs'. f_equal. rewrite !blen_app. change (blen []) with 0. lia.
Qed.

Lemma read_within_buffer_cuts_lines_witness :
  readFromPos (Some ((str "ok" ++ [LF])
                     ++ str "one" ++ [CR; LF] ++ str "10%" ++ [CR] ++ str "20%" ++ [CR; CR; LF]
                     ++ [LF] ++ str "end" ++ [CR]))
              (blen (str "ok" ++ [LF]))
  = mkRead 23 [str "one"; str "10%"; str "20%"; []; []; str "end"] ReadOK.
Proof.
  etransitivity; [apply read_within_buffer_cuts_lines | reflexivity].
  unfold initialBufCap. vm_compute. discriminate.
Defined.

(** ** A record at or over the cap, across the polls *)




(** * The cursor of the seek handler *)

Lemma digit_digitChar (d : Z) : 0 <= d <= 9 -> Web.digit (digitChar d) = Some d.
Proof.
  intros H.
  assert (d = 0 \/ d = 1 \/ d = 2 \/ d = 3 \/ d = 4 \/ d = 5 \/ d = 6 \/ d = 7
          \/ d = 8 \/ d = 9) as C by lia.
  repeat (destruct C as [-> | C]; [reflexivity|]). subst d. reflexivity.
Qed.

Lemma digitChar_no_sign (d : Z) :
  0 <= d <= 9 ->
  Ascii.eqb (digitChar d) "+"%char = false /\ Ascii.eqb (digitChar d) "-"%char = false.
Proof.
  intros H.
  assert (d = 0 \/ d = 1 \/ d = 2 \/ d = 3 \/ d = 4 \/ d = 5 \/ d = 6 \/ d = 7
          \/ d = 8 \/ d = 9) as C by lia.
  repeat (destruct C as [-> | C]; [split; reflexivity|]). subst d. split; reflexivity.
Qed.

(** Reading back what [formatBits] wrote. *)
Lemma parseDigits_formatBits (fuel : nat) : forall u acc,
  0 <= u <= Web.maxUint64 -> u < 10 ^ Z.of_nat fuel ->
  Web.parseDigits (formatBits fuel u acc) 0 = Web.parseDigits acc u.
Proof.
  induction fuel as [|fuel IH]; intros u acc Hu Hlt.
  - change (10 ^ Z.of_nat 0) with 1 in Hlt. assert (u = 0) as -> by lia. reflexivity.
  - cbn [formatBits]. destruct (Z.ltb_spec u 10) as [Hs|Hs].
    + cbn [Web.parseDigits]. rewrite digit_digitChar by lia.
      unfold Web.maxUint64 in *.
      change ((2 ^ 64 - 1) / 10 + 1 <=? 0) with false. cbv iota.
      change (0 * 10 + u) with u.
      destruct (Z.ltb_spec (2 ^ 64 - 1) u); [lia | reflexivity].
    + rewrite Nat2Z.inj_succ, Z.pow_succ_r in Hlt by lia.
      assert (Hdiv : u = 10 * (u / 10) + u mod 10) by (apply Z.div_mod; lia).
      pose proof (Z.mod_pos_bound u 10 ltac:(lia)) as Hmod.
      rewrite IH by (unfold Web.maxUint64 in *; lia).
      cbn [Web.parseDigits]. rewrite digit_digitChar by lia.
      unfold Web.maxUint64 in *.
      change ((2 ^ 64 - 1) / 10 + 1) with 1844674407370955162.
      change (2 ^ 64 - 1) with 18446744073709551615 in *.
      destruct (Z.leb_spec 1844674407370955162 (u / 10)); [lia|].
      replace (u / 10 * 10 + u mod 10) with u by lia.
      destruct (Z.ltb_spec 18446744073709551615 u); [lia | reflexivity].
Qed.

(** [formatBits] writes at least one digit, and a digit first. *)
Lemma formatBits_head (fuel : nat) : forall u acc,
  0 <= u ->
  exists d rest, formatBits (S fuel) u acc = String (digitChar d) rest /\ 0 <= d <= 9.
Proof.
  induction fuel as [|fuel IH]; intros u acc Hu.
  - cbn [formatBits]. destruct (Z.ltb_spec u 10).
    + exists u, acc. split; [reflexivity | lia].
    + exists (u mod 10), acc. split; [reflexivity|].
      pose proof (Z.mod_pos_bound u 10 ltac:(lia)). lia.
  - change (formatBits (S (S fuel)) u acc)
      with (if u <? 10 then String (digitChar u) acc
            else formatBits (S fuel) (u / 10) (String (digitChar (u mod 10)) acc)).
    destruct (Z.ltb_spec u 10).
    + exists u, acc. split; [reflexivity | lia].
    + apply IH. apply Z.div_pos; lia.
Qed.

Lemma ParseUint_formatBits (u : Z) :
  0 <= u <= 2 ^ 63 -> Web.ParseUint (formatBits 20 u EmptyString) = inr u.
Proof.
  intros Hu. destruct (formatBits_head 19 u EmptyString ltac:(lia)) as (d & rest & E & _).
  unfold Web.ParseUint. rewrite E, <- E.
  apply (parseDigits_formatBits 20 u EmptyString).
  - unfold Web.maxUint64. lia.
  - change (10 ^ Z.of_nat 20) with 100000000000000000000.
    change (2 ^ 63) with 9223372036854775808 in Hu. lia.
Qed.

Lemma ParseInt_FormatInt (c : Z) :
  - 2 ^ 63 <= c < 2 ^ 63 -> Web.ParseInt (FormatInt c) = inr c.
Proof.
  intros Hc. unfold FormatInt. destruct (Z.ltb_spec c 0) as [Hneg|Hpos].
  - unfold Web.ParseInt. change (Ascii.eqb "-" "-")%char with true.
    change (Ascii.eqb "-" "+")%char with false. cbn [orb negb andb].
    rewrite ParseUint_formatBits by lia.
    destruct (Z.ltb_spec (2 ^ 63) (- c)); [lia|]. f_equal. lia.
  - destruct (formatBits_head 19 c EmptyString Hpos) as (d & rest & E & Hd).
    destruct (digitChar_no_sign d Hd) as [Hp Hm].
    pose proof (ParseUint_formatBits c ltac:(lia)) as P. rewrite E in *.
    unfold Web.ParseInt. rewrite Hp, Hm. cbn [orb negb andb]. rewrite P.
    destruct (Z.leb_spec (2 ^ 63) c); [lia | reflexivity].
Qed.

(** X8. The cursor a successful seek answers with, sent back as the
    [cursor] parameter of the next request in the form the
    [EXECD-COMMANDS-TAIL-CURSOR] header has it, is read as the same
    number: the next seek is made from exactly that cursor, whatever the
    request held before. *)
Theorem tail_cursor_feeds_next_seek
        (runtimeSeek : string -> Z -> RuntimeErr + (bytes * Z))
        (errorText : RuntimeErr -> string)
        (id : string) (params : gmap string string)
        (status lastCursor : Z) (body : bytes) :
  - 2 ^ 63 <= lastCursor < 2 ^ 63 ->
  Web.GetBackgroundCommandOutput runtimeSeek errorText id params
  = Web.TextBody status lastCursor body ->
  exists header,
    tailCursorHeader (Web.GetBackgroundCommandOutput runtimeSeek errorText id params)
    = Some header
    /\ Web.GetBackgroundCommandOutput runtimeSeek errorText id (<["cursor" := header]> params)
       = match runtimeSeek id lastCursor with
         | inl err => Web.RespondError Web.StatusBadRequest Web.ErrorCodeInvalidRequest
                                       (errorText err)
         | inr (output, next) => Web.TextBody Web.StatusOK next output
         end.
Proof.
  intros Hc Hr. exists (FormatInt lastCursor). rewrite Hr.
  split; [reflexivity|].
  unfold Web.GetBackgroundCommandOutput in *.
  destruct (String.eqb id "") eqn:Eid; [discriminate|].
  unfold Web.Query. rewrite lookup_insert_eq. cbn [default]. unfold Datatypes.id.
  unfold Web.QueryInt64. rewrite (ParseInt_FormatInt lastCursor Hc). reflexivity.
Qed.

Lemma tail_cursor_feeds_next_seek_witness :
  exists header,
    tailCursorHeader
      (Web.GetBackgroundCommandOutput (fun _ c => inr (str "line", c + 5)) (fun _ => "gone")
                                      "sess-1" (<["cursor" := "-7"]> ∅))
    = Some header
    /\ Web.GetBackgroundCommandOutput (fun _ c => inr (str "line", c + 5)) (fun _ => "gone")
                                      "sess-1" (<["cursor" := header]> (<["cursor" := "-7"]> ∅))
       = Web.TextBody Web.StatusOK 3 (str "line").
Proof.
  apply (tail_cursor_feeds_next_seek (fun _ c => inr (str "line", c + 5)) (fun _ => "gone")
           "sess-1" (<["cursor" := "-7"]> ∅) Web.StatusOK (-2) (str "line")).
  - lia.
  - reflexivity.
Defined.

(** * The egress policy *)

Lemma append_nil (b : string) : (EmptyString ++ b)%string = b.
Proof. reflexivity. Qed.

Lemma append_cons (c : Ascii.ascii) (a b : string) :
  (String c a ++ b)%string = String c (a ++ b)%string.
Proof. reflexivity. Qed.

Lemma length_append (a b : string) :
  String.length (a ++ b)%string = (String.length a + String.length b)%nat.
Proof.
  induction a as [|c a IH]; rewrite ?append_nil, ?append_cons; simpl;
    [reflexivity | rewrite IH; reflexivity].
Qed.

Lemma sliceTo_append (a b : string) : Policy.sliceTo (String.length a) (a ++ b)%string = a.
Proof.
  induction a as [|c a IH]; rewrite ?append_nil, ?append_cons; simpl;
    [destruct b | rewrite IH]; reflexivity.
Qed.

Lemma sliceFrom_append (a b : string) : Policy.sliceFrom (String.length a) (a ++ b)%string = b.
Proof.
  induction a as [|c a IH]; rewrite ?append_nil, ?append_cons; simpl;
    [destruct b; reflexivity | exact IH].
Qed.

Lemma slice_split (n : nat) : forall s,
  s = (Policy.sliceTo n s ++ Policy.sliceFrom n s)%string.
Proof.
  induction n as [|n IH]; intros [|c s]; simpl; rewrite ?append_nil, ?append_cons;
    try reflexivity.
  f_equal. apply IH.
Qed.

Lemma HasSuffix_iff (s suffix : string) :
  Policy.HasSuffix s suffix = true <-> exists pre, s = (pre ++ suffix)%string.
Proof.
  unfold Policy.HasSuffix. split.
  - intros H. apply andb_true_iff in H as [_ H]. apply String.eqb_eq in H.
    exists (Policy.sliceTo (String.length s - String.length suffix) s).
    pose proof (slice_split (String.length s - String.length suffix) s) as Sp.
    rewrite H in Sp. exact Sp.
  - intros [pre ->]. rewrite length_append.
    replace (String.length pre + String.length suffix - String.length suffix)%nat
      with (String.length pre) by lia.
    rewrite sliceFrom_append, String.eqb_refl, andb_true_r.
    apply Nat.leb_le. lia.
Qed.

Lemma HasPrefix_append (p rest : string) : Policy.HasPrefix (p ++ rest)%string p = true.
Proof.
  unfold Policy.HasPrefix. rewrite length_append, sliceTo_append, String.eqb_refl, andb_true_r.
  apply Nat.leb_le. lia.
Qed.

Lemma TrimPrefix_append (p rest : string) : Policy.TrimPrefix (p ++ rest)%string p = rest.
Proof. unfold Policy.TrimPrefix. rewrite HasPrefix_append. apply sliceFrom_append. Qed.

Lemma append_longer (a b : string) : a <> EmptyString -> (a ++ b)%string <> b.
Proof.
  intros Ha E. apply (f_equal String.length) in E. rewrite length_append in E.
  destruct a; [congruence|]. simpl in E. lia.
Qed.

Lemma append_assoc (a b c : string) : ((a ++ b) ++ c)%string = (a ++ b ++ c)%string.
Proof.
  induction a as [|x a IH]; rewrite ?append_nil, ?append_cons;
    [reflexivity | rewrite IH; reflexivity].
Qed.

(** X10. A rule whose target is, trimmed and lowered, [*.base] matches a
    domain exactly when the lowered domain ends in [.base], whatever
    comes before the dot (several labels, or nothing at all); the bare
    [base] is not matched. *)
Theorem wildcard_matches_subdomains_only
        (ToLower TrimSpace : string -> string) (r : Policy.EgressRule)
        (base domain : string) :
  ToLower (TrimSpace (Policy.Target r)) = ("*." ++ base)%string ->
  (Policy.matchesDomain ToLower TrimSpace r domain = true
   <-> exists sub, ToLower domain = (sub ++ "." ++ base)%string)
  /\ (ToLower domain = base -> Policy.matchesDomain ToLower TrimSpace r domain = false).
Proof.
  intros Hp.
  assert (Hm : Policy.matchesDomain ToLower TrimSpace r domain
               = String.eqb ("*." ++ base)%string (ToLower domain)
                 || Policy.HasSuffix (ToLower domain) ("." ++ base)%string
                    && negb (String.eqb (ToLower domain) base)).
  { unfold Policy.matchesDomain. rewrite Hp.
    change ("*." ++ base)%string with ("*" ++ ("." ++ base))%string at 4.
    rewrite (TrimPrefix_append "*" ("." ++ base)), (TrimPrefix_append "*." base),
      (HasPrefix_append "*." base).
    change (String.eqb ("*." ++ base) "")%string with false. cbv iota.
    destruct (String.eqb ("*." ++ base)%string (ToLower domain)); reflexivity. }
  assert (Hne : forall sub, (sub ++ "." ++ base)%string <> base).
  { intros sub E. apply (append_longer (sub ++ ".") base).
    - destruct sub; discriminate.
    - rewrite append_assoc. exact E. }
  rewrite Hm. split; [split|].
  - intros H. apply orb_true_iff in H as [H|H].
    + apply String.eqb_eq in H. exists "*"%string. rewrite <- H. reflexivity.
    + apply andb_true_iff in H as [H _]. apply HasSuffix_iff in H. exact H.
  - intros [sub E]. apply orb_true_iff. right. apply andb_true_iff. split.
    + apply HasSuffix_iff. exists sub. exact E.
    + apply negb_true_iff, String.eqb_neq. rewrite E. apply Hne.
  - intros E. rewrite E, String.eqb_refl, andb_false_r, orb_false_r.
    apply String.eqb_neq. exact (Hne "*"%string).
Qed.

Lemma wildcard_matches_subdomains_only_witness :
  (Policy.matchesDomain Policy.lowerASCII Policy.trimASCII
                        (Policy.mkRule "allow" " *.Example.com ") "API.v2.example.COM" = true
   <-> exists sub, Policy.lowerASCII "API.v2.example.COM"
                   = (sub ++ "." ++ "example.com")%string)
  /\ (Policy.lowerASCII "API.v2.example.COM" = "example.com"%string ->
      Policy.matchesDomain Policy.lowerASCII Policy.trimASCII
                           (Policy.mkRule "allow" " *.Example.com ") "API.v2.example.COM"
      = false).
Proof.
  apply (wildcard_matches_subdomains_only Policy.lowerASCII Policy.trimASCII
           (Policy.mkRule "allow" " *.Example.com ") "example.com" "API.v2.example.COM").
  reflexivity.
Defined.

(** The rules before the first match. *)
Lemma firstMatch_none (ToLower TrimSpace : string -> string)
      (rules : list Policy.EgressRule) (d : string) :
  Policy.firstMatch ToLower TrimSpace rules d = None
  <-> Forall (fun r => Policy.matchesDomain ToLower TrimSpace r d = false) rules.
Proof.
  induction rules as [|r rules IH]; simpl.
  - split; [constructor | reflexivity].
  - destruct (Policy.matchesDomain ToLower TrimSpace r d) eqn:M.
    + split; [discriminate|]. intros H. apply Forall_cons in H as [H _]. congruence.
    + rewrite IH. split; [intros H; constructor; assumption|].
      intros H. apply Forall_cons in H as [_ H]. exact H.
Qed.

Lemma firstMatch_some (ToLower TrimSpace : string -> string)
      (rules : list Policy.EgressRule) (d a : string) :
  Policy.firstMatch ToLower TrimSpace rules d = Some a
  <-> exists pre r post,
        rules = pre ++ r :: post
        /\ Forall (fun r => Policy.matchesDomain ToLower TrimSpace r d = false) pre
        /\ Policy.matchesDomain ToLower TrimSpace r d = true
        /\ a = (if String.eqb (Policy.Action r) "" then Policy.ActionDeny
                else Policy.Action r).
Proof.
  induction rules as [|r rules IH]; simpl.
  - split; [discriminate|]. intros (pre & r & post & E & _). destruct pre; discriminate.
  - destruct (Policy.matchesDomain ToLower TrimSpace r d) eqn:M.
    + split.
      * intros [= <-]. exists [], r, rules. repeat split; auto.
      * intros (pre & r' & post & E & Hpre & Hr & ->).
        destruct pre as [|x pre]; simpl in E; injection E as -> ->; [reflexivity|].
        apply Forall_cons in Hpre as [Hx _]. congruence.
    + rewrite IH. split.
      * intros (pre & r' & post & -> & Hpre & Hr & ->).
        exists (r :: pre), r', post. repeat split; auto.
      * intros (pre & r' & post & E & Hpre & Hr & ->).
        destruct pre as [|x pre]; simpl in E; injection E as -> ->; [congruence|].
        apply Forall_cons in Hpre as [_ Hpre].
        exists pre, r', post. repeat split; auto.
Qed.

(** X11. [Evaluate] answers [allow] in two cases only: the first rule
    that matches the domain has the action [allow], or no rule matches
    and the default action is [allow].  A nil policy, a rule with an
    empty action and an empty default action never allow. *)
Theorem evaluate_allows_only_on_allow
        (ToLower TrimSpace : string -> string)
        (p : option Policy.NetworkPolicy) (domain : string) :
  Policy.Evaluate ToLower TrimSpace p domain = Policy.ActionAllow
  <-> exists pol,
        p = Some pol
        /\ let d := ToLower (Policy.TrimSuffix domain ".") in
           (exists pre r post,
               Policy.Egress pol = pre ++ r :: post
               /\ Forall (fun r => Policy.matchesDomain ToLower TrimSpace r d = false) pre
               /\ Policy.matchesDomain ToLower TrimSpace r d = true
               /\ Policy.Action r = Policy.ActionAllow)
           \/ (Forall (fun r => Policy.matchesDomain ToLower TrimSpace r d = false)
                      (Policy.Egress pol)
               /\ Policy.DefaultAction pol = Policy.ActionAllow).
Proof.
  cbv zeta. destruct p as [pol|]; cbn [Policy.Evaluate].
  2: { split; [discriminate|]. intros (pol & [=] & _). }
  set (d := ToLower (Policy.TrimSuffix domain ".")).
  destruct (Policy.firstMatch ToLower TrimSpace (Policy.Egress pol) d) as [a|] eqn:F.
  - pose proof (proj1 (firstMatch_some ToLower TrimSpace _ d a) F)
      as (pre & r & post & E & Hpre & Hr & Ha).
    split.
    + intros ->. exists pol. split; [reflexivity|]. left. exists pre, r, post.
      repeat split; auto.
      destruct (String.eqb (Policy.Action r) ""); [discriminate | congruence].
    + intros (pol' & [= <-] & [(pre' & r' & post' & E' & Hpre' & Hr' & Ha') | [Hnone _]]).
      * assert (F' : Policy.firstMatch ToLower TrimSpace (Policy.Egress pol) d
                     = Some Policy.ActionAllow).
        { apply firstMatch_some. exists pre', r', post'. rewrite Ha'. repeat split; auto. }
        congruence.
      * apply firstMatch_none in Hnone. congruence.
  - apply firstMatch_none in F. split.
    + intros H. exists pol. split; [reflexivity|]. right. split; [exact F|].
      destruct (String.eqb (Policy.DefaultAction pol) ""); [discriminate | exact H].
    + intros (pol' & [= <-] & [(pre' & r' & post' & E' & Hpre' & Hr' & Ha') | [_ Hdef]]).
      * rewrite E' in F. apply Forall_app in F as [_ F].
        apply Forall_cons in F as [F _]. congruence.
      * rewrite Hdef. reflexivity.
Qed.

(** X12. [Evaluate] never answers with the empty string: the answer is
    [deny], the action of a rule of the policy, or its default action. *)
Theorem evaluate_answers_an_action
        (ToLower TrimSpace : string -> string)
        (p : option Policy.NetworkPolicy) (domain : string) :
  String.eqb (Policy.Evaluate ToLower TrimSpace p domain) "" = false
  /\ (Policy.Evaluate ToLower TrimSpace p domain = Policy.ActionDeny
      \/ exists pol, p = Some pol
           /\ (Policy.Evaluate ToLower TrimSpace p domain = Policy.DefaultAction pol
               \/ exists r, In r (Policy.Egress pol)
                    /\ Policy.Evaluate ToLower TrimSpace p domain = Policy.Action r)).
Proof.
  destruct p as [pol|]; cbn [Policy.Evaluate]; [|split; [reflexivity | left; reflexivity]].
  set (d := ToLower (Policy.TrimSuffix domain ".")).
  destruct (Policy.firstMatch ToLower TrimSpace (Policy.Egress pol) d) as [a|] eqn:F.
  - apply firstMatch_some in F as (pre & r & post & E & _ & _ & ->).
    destruct (String.eqb (Policy.Action r) "") eqn:A.
    + split; [reflexivity | left; reflexivity].
    + split; [exact A|]. right. exists pol. split; [reflexivity|]. right.
      exists r. split; [|reflexivity]. rewrite E. apply in_elt.
  - destruct (String.eqb (Policy.DefaultAction pol) "") eqn:A.
    + split; [reflexivity | left; reflexivity].
    + split; [exact A|]. right. exists pol. split; [reflexivity|]. left. reflexivity.
Qed.

(** X13. [ensureDefaults] leaves a policy with a default action, changes
    no answer of [Evaluate], and does nothing when applied again. *)
Theorem ensureDefaults_keeps_every_answer
        (ToLower TrimSpace : string -> string) (p : option Policy.NetworkPolicy) :
  String.eqb (Policy.DefaultAction (Policy.ensureDefaults p)) "" = false
  /\ (forall domain,
         Policy.Evaluate ToLower TrimSpace (Some (Policy.ensureDefaults p)) domain
         = Policy.Evaluate ToLower TrimSpace p domain)
  /\ Policy.ensureDefaults (Some (Policy.ensureDefaults p)) = Policy.ensureDefaults p.
Proof.
  destruct p as [pol|]; cbn [Policy.ensureDefaults].
  - destruct (String.eqb (Policy.DefaultAction pol) "") eqn:A.
    + split; [reflexivity|]. split; [|reflexivity].
      intros domain. cbn [Policy.Evaluate Policy.Egress Policy.DefaultAction].
      rewrite A. reflexivity.
    + split; [exact A|]. split; [reflexivity|].
      cbn [Policy.ensureDefaults]. rewrite A. reflexivity.
  - split; [reflexivity|]. split; [reflexivity | reflexivity].
Qed.

(** X14. A policy text that is blank, [null] or [{}] once trimmed parses
    to a policy that denies every domain; a policy that parses has a
    default action; and [ParsePolicy] fails exactly when the text is none
    of the three and [json.Unmarshal] fails on it. *)
Theorem parsed_policy_denies_by_default
        (ToLower TrimSpace : string -> string)
        (Unmarshal : string -> option Policy.NetworkPolicy) (raw : string) :
  (In (TrimSpace raw) [""; "null"; "{}"]%string ->
   forall domain,
     Policy.Evaluate ToLower TrimSpace (Policy.ParsePolicy TrimSpace Unmarshal raw) domain
     = Policy.ActionDeny)
  /\ (forall p, Policy.ParsePolicy TrimSpace Unmarshal raw = Some p ->
                String.eqb (Policy.DefaultAction p) "" = false)
  /\ (Policy.ParsePolicy TrimSpace Unmarshal raw = None
      <-> ~ In (TrimSpace raw) [""; "null"; "{}"]%string
          /\ Unmarshal (TrimSpace raw) = None).
Proof.
  unfold Policy.ParsePolicy.
  assert (Hin : In (TrimSpace raw) [""; "null"; "{}"]%string
                <-> String.eqb (TrimSpace raw) "" || String.eqb (TrimSpace raw) "null"
                    || String.eqb (TrimSpace raw) "{}" = true).
  { rewrite !orb_true_iff, !String.eqb_eq. simpl. intuition congruence. }
  destruct (String.eqb (TrimSpace raw) "" || String.eqb (TrimSpace raw) "null"
            || String.eqb (TrimSpace raw) "{}") eqn:B.
  - split; [intros _ domain; reflexivity|]. split.
    + intros p [= <-]. reflexivity.
    + split; [discriminate|]. intros [H _]. exfalso. apply H, Hin. reflexivity.
  - split; [intros H; apply Hin in H; discriminate|]. split.
    + intros p H. destruct (Unmarshal (TrimSpace raw)) as [q|]; [|discriminate].
      injection H as <-. cbn [Policy.ensureDefaults].
      destruct (String.eqb (Policy.DefaultAction q) "") eqn:A; [reflexivity | exact A].
    + destruct (Unmarshal (TrimSpace raw)) as [q|].
      * split; [discriminate | intros [_ [=]]].
      * split; [|reflexivity]. intros _. split; [|reflexivity].
        intros H. apply Hin in H. discriminate.
Qed.

Lemma TrimSuffix_dot (domain : string) :
  Policy.HasSuffix domain "." = false ->
  Policy.TrimSuffix (domain ++ ".") "." = Policy.TrimSuffix domain ".".
Proof.
  intros H. unfold Policy.TrimSuffix at 2. rewrite H. unfold Policy.TrimSuffix.
  rewrite (proj2 (HasSuffix_iff (domain ++ ".") ".")) by (exists domain; reflexivity).
  rewrite length_append. change (String.length ".") with 1%nat.
  replace (String.length domain + 1 - 1)%nat with (String.length domain) by lia.
  apply sliceTo_append.
Qed.

(** X15. The root dot of a fully qualified name makes no difference: a
    domain and the same domain with one dot appended get the same
    answer. *)
Theorem evaluate_ignores_the_root_dot
        (ToLower TrimSpace : string -> string)
        (p : option Policy.NetworkPolicy) (domain : string) :
  Policy.HasSuffix domain "." = false ->
  Policy.Evaluate ToLower TrimSpace p (domain ++ ".")
  = Policy.Evaluate ToLower TrimSpace p domain.
Proof.
  intros H. destruct p as [pol|]; [|reflexivity].
  cbn [Policy.Evaluate]. rewrite (TrimSuffix_dot domain H). reflexivity.
Qed.

Lemma evaluate_ignores_the_root_dot_witness :
  Policy.Evaluate Policy.lowerASCII Policy.trimASCII
                  (Some (Policy.mkPolicy [Policy.mkRule "allow" "*.pypi.org"] "deny"))
                  ("files.PyPI.org" ++ ".")
  = Policy.Evaluate Policy.lowerASCII Policy.trimASCII
                    (Some (Policy.mkPolicy [Policy.mkRule "allow" "*.pypi.org"] "deny"))
                    "files.PyPI.org".
Proof. apply evaluate_ignores_the_root_dot. reflexivity. Defined.
